(** * Spotify Lyrics Translator: the lyric pipeline of [app.py]

    A shallow embedding of the lyric synchronisation and translation code of
    [SpotifyLyricsTranslator] (file [app.py]): the time column formatting and
    parsing, the translation cache (a Python [dict], insertion ordered), the
    worker-pool batch of [translate_words], the row matching of
    [update_translations], the current-line scan of [update_current_lyric], and
    the poll tick [update_display] with [update_lyrics].

    Conventions.
    - Python integers are [Z]; [//] and [%] are [Z.div] and [Z.modulo] (both
      floor, as in Python).
    - Python strings are [string].
    - A [dict] used as a map with significant order is an association list
      kept in insertion order, without duplicate keys.
    - A JSON object with optional keys is a record of [option] fields; reading
      a missing key raises [KeyError].
    - Methods of the application object are computations in the monad [M]:
      they read and write the attributes of [self] (record [App]) and may
      raise; the attributes written before a [raise] stay written.
    - The Treeview is the list of its rows, each row the three cell texts
      as they were written, and the selected item; an item is named by its
      position. Labels other than the song label, the progress bar, column
      widths and tooltips are left out.
    - Reading a cell back with [tree.item(item)['values']] goes through
      ttk, which returns an [int] instead of the text whenever [int(text)]
      succeeds. The methods below are written for cells that come back as
      the text written ([reads_back_as_text]); for a cell that comes back
      as an [int] the source never matches the row in [update_translations]
      and raises [TypeError] in [adjust_column_widths] (on [len(...)]),
      which closes [update_translations] and [update_lyrics] and is not
      modelled. Every statement whose truth depends on this carries the
      hypothesis that the cells concerned read back as text.
    - The remote services are given from outside: what each call answers
      or raises ([Spotify], [Pool]). The order in which the futures of a
      batch complete is part of [Pool].
    - A thread started by [update_lyrics] is recorded in [threads]; its body
      [run_thread] is run as one step between two ticks. The source takes
      no lock: statements on runs ([run]) are about the executions in which
      thread bodies follow one another, none overlapping another thread
      body or a tick. *)

From Stdlib Require Import ZArith List String Ascii Bool Lia Permutation Sorted.
From Stdlib Require Import DecimalString DecimalZ DecimalPos DecimalN.
Import ListNotations.

#[local] Open Scope string_scope.
#[local] Open Scope Z_scope.

(* ================================================================== *)
(** ** Python string primitives used by the time column *)

Module PyStr.

(** [str(z)] / [f"{z}"] for an integer. *)
Definition str_of_int (z : Z) : string :=
  NilZero.string_of_int (Z.to_int z).

(** [int(s)] on a string: [None] stands for [ValueError]. Only the plain
    form (an optional minus sign and decimal digits) is accepted. *)
Definition int_of_str (s : string) : option Z :=
  option_map Z.of_int (NilZero.int_of_string s).

(** [f"{z:02d}"]: zero padded to width two. *)
Definition format_02d (z : Z) : string :=
  let s := str_of_int z in
  if (String.length s <? 2)%nat then String "0" s else s.

(** [s.split(sep)] for a one-character separator. *)
Fixpoint split (sep : ascii) (s : string) : list string :=
  match s with
  | EmptyString => [EmptyString]
  | String c s' =>
      if Ascii.eqb c sep then EmptyString :: split sep s'
      else match split sep s' with
           | piece :: rest => String c piece :: rest
           | [] => [String c EmptyString]
           end
  end.

(** No character of [s] is [c]. *)
Fixpoint lacks (c : ascii) (s : string) : bool :=
  match s with
  | EmptyString => true
  | String a s' => negb (Ascii.eqb a c) && lacks c s'
  end.

End PyStr.

(* ================================================================== *)
(** ** Exceptions and the monad of methods *)

Inductive exn : Type :=
| KeyError
| TypeError
| IndexError
| ValueError
| ZeroDivisionError
| UnpicklingError
| RemoteError.

(** Outcome of a call that may raise. *)
Inductive Exc (A : Type) : Type :=
| Ok (a : A)
| Raise (e : exn).
Arguments Ok {A} a.
Arguments Raise {A} e.

(* ================================================================== *)
(** ** Data *)

(** One element of [lyrics['lyrics']['lines']]; [startTimeMs] is the
    integer that [int(...)] reads from the field. *)
Record Line : Type := mkLine {
  startTimeMs : Z;
  words : string
}.

(** The dict built by [translate_line]. *)
Record TLine : Type := mkTLine {
  t_startTimeMs : Z;
  t_words : string;
  translated : string
}.

(** [minutes:seconds] as shown in the Time column. *)
Definition ms_to_min_sec (ms : Z) : string :=
  let minutes := ms / 60000 in
  let seconds := (ms mod 60000) / 1000 in
  PyStr.str_of_int minutes ++ ":" ++ PyStr.format_02d seconds.

(** The expression of [update_current_lyric] that reads a Time cell back:
    [int(v.split(":")[0]) * 60000 + int(v.split(":")[1]) * 1000]. *)
Definition start_time_of (cell : string) : Exc Z :=
  let parts := PyStr.split ":" cell in
  match nth_error parts 0 with
  | None => Raise IndexError
  | Some p0 =>
      match PyStr.int_of_str p0 with
      | None => Raise ValueError
      | Some m =>
          match nth_error parts 1 with
          | None => Raise IndexError
          | Some p1 =>
              match PyStr.int_of_str p1 with
              | None => Raise ValueError
              | Some s => Ok (m * 60000 + s * 1000)
              end
          end
      end
  end.

(** [self.translate_line(translator, line)]: the translator is the remote
    call as it behaves for this one invocation. *)
Definition Translator : Type := string -> Exc string.

Definition translate_line (translator : Translator) (line : Line) : TLine :=
  let original_text := words line in
  let translated_text :=
    match translator original_text with
    | Ok t => t
    | Raise _ => original_text
    end in
  mkTLine (startTimeMs line) original_text translated_text.

(* ================================================================== *)
(** ** The dict behind [self.lyrics_cache] *)

Module PyDict.
Section Dict.
Context {V : Type}.

Definition dict : Type := list (string * V).

Definition keys (d : dict) : list string := map fst d.

(** [d.get(k)] *)
Fixpoint get (k : string) (d : dict) : option V :=
  match d with
  | [] => None
  | (k', v) :: d' => if String.eqb k' k then Some v else get k d'
  end.

(** [k in d] *)
Definition contains (k : string) (d : dict) : bool :=
  match get k d with
  | Some _ => true
  | None => false
  end.

(** [d[k] = v]: a present key keeps its place, a new key goes last. *)
Fixpoint set (k : string) (v : V) (d : dict) : dict :=
  match d with
  | [] => [(k, v)]
  | (k', v') :: d' =>
      if String.eqb k' k then (k', v) :: d' else (k', v') :: set k v d'
  end.

(** [next(iter(d))]: [None] stands for [StopIteration]. *)
Definition first_key (d : dict) : option string :=
  match d with
  | [] => None
  | (k, _) :: _ => Some k
  end.

(** [d.pop(k)], the dict that remains. *)
Fixpoint pop (k : string) (d : dict) : dict :=
  match d with
  | [] => []
  | (k', v) :: d' => if String.eqb k' k then d' else (k', v) :: pop k d'
  end.
End Dict.
Arguments dict V : clear implicits.
End PyDict.

Definition Cache : Type := PyDict.dict (list TLine).

Definition MAX_CACHE_SIZE : nat := 1000.

(** Lines 520 to 523 of [translate_words], for a size limit [max_size]:
    [cache[song_id] = translated_lyrics], then one [pop] of the first key
    when the length exceeds the limit. The dict is not empty there, so
    [next(iter(...))] cannot raise. *)
Definition cache_put (max_size : nat) (song_id : string)
    (translated_lyrics : list TLine) (cache : Cache) : Cache :=
  let cache1 := PyDict.set song_id translated_lyrics cache in
  if (max_size <? List.length cache1)%nat then
    match PyDict.first_key cache1 with
    | Some k => PyDict.pop k cache1
    | None => cache1
    end
  else cache1.

(* ================================================================== *)
(** ** The Treeview, the persisted store and the application object *)

Record Row : Type := mkRow {
  time_col : string;
  original_col : string;
  translated_col : string
}.

(** Items are identified by their position in [get_children()]. *)
Record Tree : Type := mkTree {
  rows : list Row;
  selection : option nat
}.

(** What [CACHE_FILE] holds, when it exists. *)
Inductive StoreFile : Type :=
| Pickled (c : Cache)
| Garbage.

(** [pickle.load(f)] *)
Definition pickle_load (f : StoreFile) : Exc Cache :=
  match f with
  | Pickled c => Ok c
  | Garbage => Raise UnpicklingError
  end.

(** Arguments of a started [translate_words] thread. *)
Record Job : Type := mkJob {
  job_lyrics : list Line;
  job_song_name : string;
  job_song_id : string
}.

Record App : Type := mkApp {
  current_song_id : option string;
  translation_complete : bool;
  language : string;
  lyrics_cache : Cache;
  song_label : string;
  tree : Tree;
  cache_file : option StoreFile;
  threads : list Job;
  timers : nat
}.

Definition with_current_song_id (x : option string) (a : App) : App :=
  mkApp x (translation_complete a) (language a) (lyrics_cache a)
        (song_label a) (tree a) (cache_file a) (threads a) (timers a).
Definition with_translation_complete (x : bool) (a : App) : App :=
  mkApp (current_song_id a) x (language a) (lyrics_cache a)
        (song_label a) (tree a) (cache_file a) (threads a) (timers a).
Definition with_language (x : string) (a : App) : App :=
  mkApp (current_song_id a) (translation_complete a) x (lyrics_cache a)
        (song_label a) (tree a) (cache_file a) (threads a) (timers a).
Definition with_lyrics_cache (x : Cache) (a : App) : App :=
  mkApp (current_song_id a) (translation_complete a) (language a) x
        (song_label a) (tree a) (cache_file a) (threads a) (timers a).
Definition with_song_label (x : string) (a : App) : App :=
  mkApp (current_song_id a) (translation_complete a) (language a)
        (lyrics_cache a) x (tree a) (cache_file a) (threads a) (timers a).
Definition with_tree (x : Tree) (a : App) : App :=
  mkApp (current_song_id a) (translation_complete a) (language a)
        (lyrics_cache a) (song_label a) x (cache_file a) (threads a) (timers a).
Definition with_cache_file (x : option StoreFile) (a : App) : App :=
  mkApp (current_song_id a) (translation_complete a) (language a)
        (lyrics_cache a) (song_label a) (tree a) x (threads a) (timers a).
Definition with_threads (x : list Job) (a : App) : App :=
  mkApp (current_song_id a) (translation_complete a) (language a)
        (lyrics_cache a) (song_label a) (tree a) (cache_file a) x (timers a).
Definition with_timers (x : nat) (a : App) : App :=
  mkApp (current_song_id a) (translation_complete a) (language a)
        (lyrics_cache a) (song_label a) (tree a) (cache_file a) (threads a) x.

(** A method of the application object. *)
Definition M (A : Type) : Type := App -> Exc A * App.

Definition ret {A} (x : A) : M A := fun a => (Ok x, a).
Definition bind {A B} (c : M A) (k : A -> M B) : M B :=
  fun a =>
    match c a with
    | (Ok x, a') => k x a'
    | (Raise e, a') => (Raise e, a')
    end.
Definition raise {A} (e : exn) : M A := fun a => (Raise e, a).
Definition lift {A} (r : Exc A) : M A := fun a => (r, a).
Definition gets {A} (f : App -> A) : M A := fun a => (Ok (f a), a).
Definition modify (f : App -> App) : M unit := fun a => (Ok tt, f a).

(** [o[key]] where the key may be missing, or [o] may be [None]. *)
Definition getitem {A} (e : exn) (o : option A) : M A :=
  match o with
  | Some x => ret x
  | None => raise e
  end.

Declare Scope method_scope.
Delimit Scope method_scope with method.
Notation "x <- c ;; k" := (bind c (fun x => k))
  (at level 100, c at next level, right associativity) : method_scope.
Notation "c ;; k" := (bind c (fun _ => k))
  (at level 100, right associativity) : method_scope.
#[local] Open Scope method_scope.

(* ================================================================== *)
(** ** The remote services, as one poll tick sees them *)

(** [current_song['item']]; the artist is [artists[0]['name']], the album
    is [album['name']]. *)
Record Item : Type := mkItem {
  id : string;
  name : string;
  artist_name : string;
  album_name : string;
  duration_ms : Z
}.

(** The playback JSON; [item] is [None] when no track is attached. *)
Record Playback : Type := mkPlayback {
  item : option Item;
  progress_ms : Z;
  is_playing : bool
}.

(** [lyrics['lyrics']], whose keys may be missing. *)
Record LyricsBody : Type := mkLyricsBody {
  lines : option (list Line);
  language_key : option string
}.

(** The answer of [get_lyrics]; the key ['lyrics'] may be missing. *)
Record LyricsJson : Type := mkLyricsJson {
  lyrics_key : option LyricsBody
}.

(** [self.sp] during one tick: what the n-th [get_current_song()] of the
    tick answers, and what [get_lyrics(song_id)] answers. *)
Record Spotify : Type := mkSpotify {
  get_current_song : nat -> Exc (option Playback);
  get_lyrics : string -> Exc (option LyricsJson)
}.

(** One run of [translate_words]: the remote translation as it behaves for
    the title and for the task submitted for the i-th line, and the order in
    which the futures complete. *)
Record Pool : Type := mkPool {
  on_title : Translator;
  on_line : nat -> Translator;
  completion : list nat
}.

(* ================================================================== *)
(** ** Methods *)

(** [save_cache] *)
Definition save_cache : M unit :=
  modify (fun a => with_cache_file (Some (Pickled (lyrics_cache a))) a).

(** [get_current_playback_position]: every exception is caught here. *)
Definition get_current_playback_position (sp : Spotify)
    : option Playback * Z :=
  match get_current_song sp 0%nat with
  | Ok (Some current_song) => (Some current_song, progress_ms current_song)
  | Ok None => (None, 0)
  | Raise _ => (None, 0)
  end.

(** The [for] loop of [update_current_lyric]: [i] is the position of the
    first row of [items], [last_index] the item kept so far. *)
Fixpoint scan_rows (current_position : Z) (items : list Row) (i : nat)
    (last_index : option nat) : Exc (option nat) :=
  match items with
  | [] => Ok last_index
  | item_data :: rest =>
      match start_time_of (time_col item_data) with
      | Raise e => Raise e
      | Ok start_time =>
          if start_time <=? current_position
          then scan_rows current_position rest (S i) (Some i)
          else Ok last_index
      end
  end.

Definition update_current_lyric (current_position : Z) : M unit :=
  t <- gets tree ;;
  last_index <- lift (scan_rows current_position (rows t) 0%nat None) ;;
  match last_index with
  | Some i => modify (with_tree (mkTree (rows t) (Some i)))
  | None => ret tt
  end.

(** The inner loop of [update_translations] for one row: the first
    translated line with the same Time text and the same words. The cells
    are compared as the text written, which is what the source does for a
    row whose cells read back as text ([row_reads_back_as_text]); a cell
    that reads back as an [int] equals no text in the source. *)
Definition matching_lyric (translated_lyrics : list TLine) (r : Row)
    : option TLine :=
  find (fun lyric =>
          String.eqb (ms_to_min_sec (t_startTimeMs lyric)) (time_col r)
          && String.eqb (t_words lyric) (original_col r))
       translated_lyrics.

Definition set_translated (value : string) (r : Row) : Row :=
  mkRow (time_col r) (original_col r) value.

Definition translate_row (translated_lyrics : list TLine) (r : Row) : Row :=
  match matching_lyric translated_lyrics r with
  | Some lyric => set_translated (translated lyric) r
  | None => r
  end.

(** [update_translations], up to its closing [adjust_column_widths],
    which returns normally when the Original and Translated cells read back
    as text and is otherwise left out (see the conventions). *)
Definition update_translations (translated_lyrics : list TLine) : M unit :=
  t <- gets tree ;;
  let rows1 := map (translate_row translated_lyrics) (rows t) in
  modify (with_tree (mkTree rows1 (selection t))) ;;
  match rows1 with
  | [] => ret tt
  | first_item :: rest =>
      lyric0 <- getitem IndexError (nth_error translated_lyrics 0) ;;
      modify (with_tree
                (mkTree (set_translated (translated lyric0) first_item :: rest)
                        (selection t)))
  end.

(** [as_completed(futures)]: the results in the order of completion. *)
Definition as_completed {A} (order : list nat) (futures : list A) : list A :=
  flat_map (fun i => match nth_error futures i with
                     | Some r => [r]
                     | None => []
                     end) order.

(** The futures of [translate_words], in submission order. *)
Fixpoint submit_all (pool : Pool) (i : nat) (lyrics : list Line)
    : list TLine :=
  match lyrics with
  | [] => []
  | line :: rest =>
      translate_line (on_line pool i) line :: submit_all pool (S i) rest
  end.

Definition translate_words (pool : Pool) (lyrics : list Line)
    (song_name song_id : string) (callback : list TLine -> M unit)
    : M unit :=
  _ <- lift (on_title pool song_name) ;;
  let futures := submit_all pool 0%nat lyrics in
  let translated_lyrics := as_completed (completion pool) futures in
  modify (fun a => with_lyrics_cache
            (cache_put MAX_CACHE_SIZE song_id translated_lyrics
                       (lyrics_cache a)) a) ;;
  save_cache ;;
  callback translated_lyrics ;;
  modify (with_translation_complete true).

(** The body of a thread started by [update_lyrics]. *)
Definition run_thread (pool : Pool) (j : Job) : M unit :=
  translate_words pool (job_lyrics j) (job_song_name j) (job_song_id j)
                  update_translations.

(** [lyrics['lyrics']['lines'] if lyrics and 'lyrics' in lyrics and
    'lines' in lyrics['lyrics'] else None] *)
Definition lyrics_data_of (lyrics : option LyricsJson) : option (list Line) :=
  match lyrics with
  | Some l =>
      match lyrics_key l with
      | Some body => lines body
      | None => None
      end
  | None => None
  end.

Definition placeholder_row : Row := mkRow "0:00" "(No lyrics available)" "".

Definition lyric_row (lyric : Line) : Row :=
  mkRow (ms_to_min_sec (startTimeMs lyric)) (words lyric) "".

(** [update_lyrics], up to its closing [adjust_column_widths], as for
    [update_translations]. *)
Definition update_lyrics (sp : Spotify) : M unit :=
  current_song <- lift (get_current_song sp 1%nat) ;;
  song <- getitem TypeError current_song ;;
  it <- getitem TypeError (item song) ;;
  let song_id := id it in
  let song_name := name it in
  lyrics <- lift (get_lyrics sp song_id) ;;
  let lyrics_data := lyrics_data_of lyrics in
  modify (with_song_label (song_name ++ " - " ++ artist_name it)) ;;
  modify (with_tree (mkTree [] None)) ;;
  match lyrics_data with
  | Some (l0 :: ls) =>
      detected_lang <-
        getitem KeyError
          (match lyrics with
           | Some l => match lyrics_key l with
                       | Some body => language_key body
                       | None => None
                       end
           | None => None
           end) ;;
      modify (with_language detected_lang) ;;
      modify (with_tree (mkTree (map lyric_row (l0 :: ls)) None)) ;;
      modify (with_translation_complete false) ;;
      cache <- gets lyrics_cache ;;
      if PyDict.contains song_id cache
      then (cached <- getitem KeyError (PyDict.get song_id cache) ;;
            update_translations cached)
      else modify (fun a => with_threads
                     (threads a ++ [mkJob (l0 :: ls) song_name song_id]) a)
  | _ => modify (with_tree (mkTree [placeholder_row] None))
  end.

Definition update_display (sp : Spotify) : M unit :=
  (let '(current_song, current_position) :=
     get_current_playback_position sp in
   match current_song with
   | Some song =>
       it <- getitem TypeError (item song) ;;
       let song_id := id it in
       modify (with_song_label (name it ++ " - " ++ artist_name it)) ;;
       (if duration_ms it =? 0 then raise ZeroDivisionError else ret tt) ;;
       cur <- gets current_song_id ;;
       (match cur with
        | Some c =>
            if String.eqb song_id c then ret tt
            else (modify (with_current_song_id (Some song_id)) ;;
                  update_lyrics sp)
        | None =>
            modify (with_current_song_id (Some song_id)) ;;
            update_lyrics sp
        end) ;;
       update_current_lyric current_position
   | None => modify (with_song_label "No song playing")
   end) ;;
  modify (fun a => with_timers (S (timers a)) a).

(** The state part of [initialize_main_gui]: the attributes are set, the
    cache is loaded from the store, and the first tick is scheduled. *)
Definition initialize_main_gui (store : option StoreFile) : Exc App :=
  match
    match store with
    | Some f => pickle_load f
    | None => Ok []
    end
  with
  | Ok cache =>
      Ok (mkApp None false "" cache "Loading..." (mkTree [] None)
                store [] 1%nat)
  | Raise e => Raise e
  end.

(** Tk's main loop firing a pending [after] callback. An exception raised
    by the callback is reported by Tk and the main loop goes on; with no
    callback pending, nothing runs. *)
Definition mainloop_tick (sp : Spotify) (a : App) : App :=
  match timers a with
  | O => a
  | S n => snd (update_display sp (with_timers n a))
  end.

(** A run of writes to the cache, oldest first. *)
Definition cache_puts (max_size : nat) (ops : list (string * list TLine))
    (cache : Cache) : Cache :=
  fold_left (fun c op => cache_put max_size (fst op) (snd op) c) ops cache.

(** An offset cut down to a whole second. *)
Definition floor_second (ms : Z) : Z := 1000 * (ms / 1000).

(* ================================================================== *)
(** ** Derived notions used in the statements *)

(** An application object between two ticks, showing [rs] for track [cur]
    with nothing selected, an empty cache and one tick pending. *)
Definition app_showing (cur : option string) (rs : list Row) : App :=
  mkApp cur false "" [] "" (mkTree rs None) None [] 1%nat.

(** The list that [translate_words] hands to the cache and to the
    callback. *)
Definition delivered (pool : Pool) (lyrics : list Line) : list TLine :=
  as_completed (completion pool) (submit_all pool 0%nat lyrics).

(** The application object once [translate_words] has written and saved
    the cache. *)
Definition stored (pool : Pool) (lyrics : list Line) (song_id : string)
    (a : App) : App :=
  let c := cache_put MAX_CACHE_SIZE song_id (delivered pool lyrics)
                     (lyrics_cache a) in
  with_cache_file (Some (Pickled c)) (with_lyrics_cache c a).

(** The rows that [update_translations] leaves. *)
Definition rows_after_update (translated_lyrics : list TLine)
    (rs : list Row) : list Row :=
  match map (translate_row translated_lyrics) rs with
  | [] => []
  | first_item :: rest =>
      match translated_lyrics with
      | lyric0 :: _ => set_translated (translated lyric0) first_item :: rest
      | [] => first_item :: rest
      end
  end.

(* ================================================================== *)
(** ** Concrete tracks, pools and states *)

(** Five lines one second apart, as a track would give them. *)
Definition five_lines : list Line :=
  [mkLine 0 "uno"; mkLine 1000 "dos"; mkLine 2000 "tres";
   mkLine 3000 "cuatro"; mkLine 4000 "cinco"].

(** A pool whose futures complete in the order 3, 0, 4, 1, 2; the remote
    call answers with the text in brackets, and raises for the task with
    index [failing]. *)
Definition shuffled_pool (failing : option nat) : Pool :=
  mkPool (fun s => Ok s)
         (fun i s =>
            match failing with
            | Some k => if Nat.eqb i k then Raise RemoteError
                        else Ok ("[" ++ s ++ "]")
            | None => Ok ("[" ++ s ++ "]")
            end)
         [3; 0; 4; 1; 2]%nat.

(** Track Y on display, two lines. *)
Definition rows_of_y : list Row :=
  map lyric_row [mkLine 0 "hola"; mkLine 5000 "la la"].

(** The thread started for track X, and a pool completing in order. *)
Definition job_of_x : Job :=
  mkJob [mkLine 0 "bonjour"; mkLine 5000 "la la"] "chanson" "X".

Definition ordered_pool : Pool :=
  mkPool (fun s => Ok s) (fun _ s => Ok ("[" ++ s ++ "]")) [0; 1]%nat.

(** A track of three minutes, one second in. *)
Definition playing_x : Playback :=
  mkPlayback (Some (mkItem "x" "Cancion" "Artista" "Album" 180000)) 1000 true.

(* ================================================================== *)
(** ** Start of the application *)

(** What [CONFIG_FILE] holds, when it exists: a JSON object, with or
    without the key ['sp_dc'], or anything that [json.load] followed by
    [config.get] does not accept. *)
Inductive ConfigFile : Type :=
| ConfigObject (sp_dc : option string)
| ConfigGarbage.

(** [load_or_get_spotify_cookie]: every exception is caught and gives
    [None]. *)
Definition load_or_get_spotify_cookie (config : option ConfigFile)
    : option string :=
  match config with
  | Some (ConfigObject sp_dc) => sp_dc
  | Some ConfigGarbage => None
  | None => None
  end.

(** The Spotify account as the start of the application sees it: the
    constructor [Spotify(sp_dc)], and the [get_current_song()] that tests
    the connection. *)
Record Account : Type := mkAccount {
  connect : string -> Exc unit;
  first_song : Exc (option Playback)
}.

(** What the user has in front of them after [setup_gui]: the main window
    with its application object, or the login dialog, after an error box
    when an exception was caught. *)
Inductive Screen : Type :=
| MainGui (a : App)
| LoginDialog (shown_error : option exn).

(** Truth value of a string: [if sp_dc:]. *)
Definition truthy (s : string) : bool := negb (String.eqb s "").

Definition setup_gui (config : option ConfigFile) (account : Account)
    (store : option StoreFile) : Screen :=
  match load_or_get_spotify_cookie config with
  | Some sp_dc =>
      if truthy sp_dc then
        match connect account sp_dc with
        | Raise e => LoginDialog (Some e)
        | Ok _ =>
            match first_song account with
            | Raise e => LoginDialog (Some e)
            | Ok _ =>
                match initialize_main_gui store with
                | Ok a => MainGui a
                | Raise e => LoginDialog (Some e)
                end
            end
        end
      else LoginDialog None
  | None => LoginDialog None
  end.

(** Why [save_cookie] ends in an error box. *)
Inductive Refusal : Type :=
| EmptyEntry
| ConnectFailed (e : exn)
| NotVerified (cause : option exn)
| InitFailed (e : exn).

(** The outcome of [save_cookie]: the main window, or an error box. *)
Inductive Connection : Type :=
| Connected (a : App)
| Refused (why : Refusal).

(** [save_cookie], the command of the Connect button: [entry] is the text
    of the entry after [strip()]. The result is the config file afterwards
    and what the user gets. The config file is written before
    [initialize_main_gui] is called. *)
Definition save_cookie (entry : string) (config : option ConfigFile)
    (account : Account) (store : option StoreFile)
    : option ConfigFile * Connection :=
  if truthy entry then
    match connect account entry with
    | Raise e => (config, Refused (ConnectFailed e))
    | Ok _ =>
        match first_song account with
        | Raise e => (config, Refused (NotVerified (Some e)))
        | Ok None => (config, Refused (NotVerified None))
        | Ok (Some _) =>
            let config' := Some (ConfigObject (Some entry)) in
            match initialize_main_gui store with
            | Ok a => (config', Connected a)
            | Raise e => (config', Refused (InitFailed e))
            end
        end
    end
  else (config, Refused EmptyEntry).

(* ================================================================== *)
(** ** Runs of the application *)

(** What happens between the start and now: a pending tick fires, with the
    services as they answer during it, or a translation thread runs its
    body, with the pool as it behaves for it. Each event is run whole before
    the next: these are the executions in which no thread body overlaps
    another thread body or a tick. *)
Inductive Event : Type :=
| Tick (sp : Spotify)
| ThreadEnd (pool : Pool) (j : Job).

Definition step (ev : Event) (a : App) : App :=
  match ev with
  | Tick sp => mainloop_tick sp a
  | ThreadEnd pool j => snd (run_thread pool j a)
  end.

Definition run (evs : list Event) (a : App) : App :=
  fold_left (fun a ev => step ev a) evs a.

(** Every Time cell reads back as a start time. *)
Definition rows_readable (rs : list Row) : Prop :=
  Forall (fun r => exists z, start_time_of (time_col r) = Ok z) rs.

(** The selected item is one of the rows. *)
Definition selection_in_range (t : Tree) : Prop :=
  match selection t with
  | Some i => (i < List.length (rows t))%nat
  | None => True
  end.

(** The store file holds the cache that is in memory. *)
Definition persisted (a : App) : Prop :=
  match cache_file a with
  | Some f => pickle_load f = Ok (lyrics_cache a)
  | None => lyrics_cache a = []
  end.

(** The rows passed over by the loop: [n] rows at or before the position,
    then the end of the list or a row after the position. *)
Definition qualifying_prefix (P : Z) (items : list Row) (n : nat) : Prop :=
  (n <= List.length items)%nat /\
  (forall k row, (k < n)%nat -> nth_error items k = Some row ->
     exists z, start_time_of (time_col row) = Ok z /\ z <= P) /\
  (forall row, nth_error items n = Some row ->
     exists z, start_time_of (time_col row) = Ok z /\ P < z).


(** [lyrics['lyrics']['language']], [None] when a key on the way is
    missing. *)
Definition language_of (lyrics : option LyricsJson) : option string :=
  match lyrics with
  | Some l =>
      match lyrics_key l with
      | Some body => language_key body
      | None => None
      end
  | None => None
  end.

(** The cache is a dict within the size limit. *)
Definition cache_in_order (c : Cache) : Prop :=
  (List.length c <= MAX_CACHE_SIZE)%nat /\ NoDup (PyDict.keys c).


(* ================================================================== *)
(** ** Cells that the Treeview reads back as text *)

(** A character that makes [int(text)] raise wherever it stands: a
    printable ASCII character other than a digit, a sign and the
    underscore. *)
Definition int_rejects (c : ascii) : bool :=
  let n := nat_of_ascii c in
  ((33 <=? n) && (n <=? 126))%nat
  && negb ((48 <=? n) && (n <=? 57))%nat
  && negb (n =? 43)%nat && negb (n =? 45)%nat && negb (n =? 95)%nat.

Fixpoint holds_rejected (s : string) : bool :=
  match s with
  | EmptyString => false
  | String c s' => int_rejects c || holds_rejected s'
  end.

(** A text that [tree.item(item)['values']] gives back as written: the
    empty text, or a text holding a character that [int()] rejects. This is
    sufficient, not necessary: a text of blanks also comes back as text. *)
Definition reads_back_as_text (s : string) : bool :=
  match s with
  | EmptyString => true
  | _ => holds_rejected s
  end.

Definition row_reads_back_as_text (r : Row) : bool :=
  reads_back_as_text (time_col r)
  && reads_back_as_text (original_col r)
  && reads_back_as_text (translated_col r).

Definition cells_read_back_as_text (rs : list Row) : bool :=
  forallb row_reads_back_as_text rs.

Definition translations_read_back_as_text (tl : list TLine) : bool :=
  forallb (fun lyric => reads_back_as_text (translated lyric)) tl.

Definition words_read_back_as_text (ls : list Line) : bool :=
  forallb (fun l => reads_back_as_text (words l)) ls.


(* ================================================================== *)
(** ** Tactics *)

(** Unfolding of the monad in a goal. *)
Ltac run_method :=
  unfold bind, ret, raise, lift, gets, modify, getitem in *; cbn in *.

(** Reads the attributes of an application object built by the setters. *)
Ltac read_fields :=
  cbn [fst snd tree rows selection lyrics_cache cache_file timers
       current_song_id threads translation_complete language song_label
       with_tree with_translation_complete with_language with_song_label
       with_threads with_lyrics_cache with_cache_file with_timers
       with_current_song_id] in *.

(** Decides a permutation between two explicit lists of distinct numbers. *)
Ltac explicit_permutation :=
  apply NoDup_Permutation;
  [ repeat constructor; cbn; intuition discriminate
  | repeat constructor; cbn; intuition discriminate
  | intros x; cbn; intuition ].

(* ================================================================== *)
(** * Properties *)

(** ** Strings: the Time column reads back the offset cut to the second *)

Section TimeColumn.

Lemma to_int_proper (z : Z) :
  Z.to_int z <> Decimal.Pos Decimal.Nil /\
  Z.to_int z <> Decimal.Neg Decimal.Nil.
Proof.
  destruct z as [|p|p]; simpl; split; try discriminate;
    intros [= H]; exact (DecimalPos.Unsigned.to_uint_nonnil p H).
Qed.

Lemma int_of_str_of_int (z : Z) :
  PyStr.int_of_str (PyStr.str_of_int z) = Some z.
Proof.
  unfold PyStr.int_of_str, PyStr.str_of_int.
  destruct (to_int_proper z) as [Hp Hn].
  rewrite (NilZero.isi _ Hp Hn). simpl. f_equal. apply DecimalZ.of_to.
Qed.

Lemma lacks_colon_uint (d : Decimal.uint) :
  PyStr.lacks ":" (NilEmpty.string_of_uint d) = true.
Proof. induction d; simpl; auto. Qed.

Lemma lacks_colon_str_of_int (z : Z) :
  PyStr.lacks ":" (PyStr.str_of_int z) = true.
Proof.
  unfold PyStr.str_of_int.
  destruct (Z.to_int z) as [d|d]; simpl.
  - destruct d; simpl; auto using lacks_colon_uint.
  - destruct d; simpl; auto using lacks_colon_uint.
Qed.

Lemma lacks_colon_format_02d (z : Z) :
  PyStr.lacks ":" (PyStr.format_02d z) = true.
Proof.
  unfold PyStr.format_02d.
  destruct (String.length (PyStr.str_of_int z) <? 2)%nat; simpl;
    apply lacks_colon_str_of_int.
Qed.

Lemma split_lacks (sep : ascii) (s : string) :
  PyStr.lacks sep s = true -> PyStr.split sep s = [s].
Proof.
  induction s as [|c s IH]; simpl; intros H; [reflexivity|].
  apply andb_true_iff in H as [Hc Hs].
  apply negb_true_iff in Hc. rewrite Hc, (IH Hs). reflexivity.
Qed.

Lemma split_append (sep : ascii) (s1 s2 : string) :
  PyStr.lacks sep s1 = true ->
  PyStr.split sep (s1 ++ String sep s2) = s1 :: PyStr.split sep s2.
Proof.
  induction s1 as [|c s1 IH]; simpl; intros H.
  - rewrite Ascii.eqb_refl. reflexivity.
  - apply andb_true_iff in H as [Hc Hs].
    apply negb_true_iff in Hc. rewrite Hc, (IH Hs). reflexivity.
Qed.

Lemma int_of_format_02d (s : Z) :
  0 <= s < 60 -> PyStr.int_of_str (PyStr.format_02d s) = Some s.
Proof.
  intros H.
  assert (E : exists n, (n < 60)%nat /\ s = Z.of_nat n).
  { exists (Z.to_nat s). split; lia. }
  destruct E as (n & Hn & ->). clear H.
  do 60 (destruct n as [|n]; [reflexivity|]). lia.
Qed.

(** Reading a Time cell written by [ms_to_min_sec] gives the offset cut
    down to the second. *)
Lemma start_time_of_ms_to_min_sec (ms : Z) :
  start_time_of (ms_to_min_sec ms) = Ok (floor_second ms).
Proof.
  unfold start_time_of, ms_to_min_sec.
  change (PyStr.str_of_int (ms / 60000) ++ ":" ++
          PyStr.format_02d (ms mod 60000 / 1000))
    with (PyStr.str_of_int (ms / 60000) ++
          String ":" (PyStr.format_02d (ms mod 60000 / 1000))).
  rewrite split_append by apply lacks_colon_str_of_int.
  rewrite split_lacks by apply lacks_colon_format_02d.
  cbn [nth_error].
  rewrite int_of_str_of_int.
  assert (Hr : 0 <= ms mod 60000 < 60000) by (apply Z.mod_pos_bound; lia).
  assert (Hs : 0 <= ms mod 60000 / 1000 < 60).
  { split; [apply Z.div_pos; lia | apply Z.div_lt_upper_bound; lia]. }
  rewrite (int_of_format_02d _ Hs).
  f_equal. unfold floor_second.
  pose proof (Z.div_mod ms 60000 ltac:(lia)) as E.
  replace (ms / 1000) with (60 * (ms / 60000) + ms mod 60000 / 1000).
  - lia.
  - rewrite E at 3.
    replace (60000 * (ms / 60000)) with ((60 * (ms / 60000)) * 1000) by lia.
    rewrite Z.div_add_l by lia. reflexivity.
Qed.

Lemma floor_second_le (ms : Z) : floor_second ms <= ms.
Proof. unfold floor_second. apply Z.mul_div_le. lia. Qed.

Lemma floor_second_mono (a b : Z) :
  a <= b -> floor_second a <= floor_second b.
Proof.
  intros H. unfold floor_second.
  apply Z.mul_le_mono_nonneg_l; [lia|]. apply Z.div_le_mono; lia.
Qed.

End TimeColumn.

Example ms_to_min_sec_65432 : ms_to_min_sec 65432 = "1:05".
Proof. reflexivity. Qed.

Example start_time_of_1_05 : start_time_of "1:05" = Ok 65000.
Proof. reflexivity. Qed.

Example start_time_of_no_colon : start_time_of "105" = Raise IndexError.
Proof. reflexivity. Qed.

(* ================================================================== *)
(** ** Current-line resolution *)

Section CurrentLine.

Variable P : Z.

(** The scan over rows written from sorted lines: either no line has its
    offset, cut to the second, at or before [P], and the scan keeps what it
    had, or it ends on the last such line. *)
Lemma scan_rows_sorted (ls : list Line) :
  forall (items : list Row) (i : nat) (acc : option nat),
    StronglySorted Z.le (map startTimeMs ls) ->
    map time_col items = map (fun l => ms_to_min_sec (startTimeMs l)) ls ->
    exists r,
      scan_rows P items i acc = Ok r /\
      ((r = acc /\
        forall l, In l ls -> P < floor_second (startTimeMs l))
       \/
       (exists k l,
          r = Some (i + k)%nat /\ nth_error ls k = Some l /\
          floor_second (startTimeMs l) <= P /\
          forall j l', nth_error ls j = Some l' ->
                       floor_second (startTimeMs l') <= P -> (j <= k)%nat)).
Proof.
  induction ls as [|l ls IH]; intros items i acc Hs Hrows.
  - destruct items; [|discriminate]. exists acc. split; [reflexivity|].
    left. split; [reflexivity|]. intros l [].
  - destruct items as [|it items]; [discriminate|].
    cbn [map] in Hrows. injection Hrows as Ht Hrows.
    cbn [map] in Hs. apply StronglySorted_inv in Hs as [Hs Hall].
    cbn [scan_rows]. rewrite Ht, start_time_of_ms_to_min_sec.
    destruct (Z.leb_spec (floor_second (startTimeMs l)) P) as [Hle|Hgt].
    + destruct (IH items (S i) (Some i) Hs Hrows) as (r & Hr & Hcase).
      exists r. split; [exact Hr|]. right.
      destruct Hcase as [[-> Hnone] | (k & l1 & -> & Hk & Hle1 & Hmax)].
      * exists 0%nat, l.
        split; [f_equal; lia|]. split; [reflexivity|]. split; [exact Hle|].
        intros j l' Hj Hl'. destruct j as [|j]; [lia|].
        cbn in Hj. apply nth_error_In in Hj.
        specialize (Hnone _ Hj). lia.
      * exists (S k), l1.
        split; [f_equal; lia|]. split; [exact Hk|]. split; [exact Hle1|].
        intros j l' Hj Hl'. destruct j as [|j]; [lia|].
        cbn in Hj. specialize (Hmax _ _ Hj Hl'). lia.
    + exists acc. split; [reflexivity|]. left. split; [reflexivity|].
      intros l' [<-|Hin]; [exact Hgt|].
      rewrite Forall_forall in Hall.
      assert (Hoff : startTimeMs l <= startTimeMs l').
      { apply Hall. apply in_map. exact Hin. }
      apply floor_second_mono in Hoff. lia.
Qed.

End CurrentLine.

(** C2, as amended. With the rows written from lines sorted by offset,
    [update_current_lyric] returns without raising, leaves the rows alone,
    and selects the last line whose offset cut down to the whole second
    ([1000 * (offset // 1000)], what the Time column shows) is at or before
    the position [P]: every line qualifying is at or before the selected one
    in sequence order, so of two lines with the same offset the later one is
    taken. When no line qualifies the application object is left as it was,
    the former selection included. *)
Theorem update_current_lyric_selects_last_floor_second
    (P : Z) (ls : list Line) (a : App) :
  StronglySorted Z.le (map startTimeMs ls) ->
  map time_col (rows (tree a))
    = map (fun l => ms_to_min_sec (startTimeMs l)) ls ->
  exists a',
    update_current_lyric P a = (Ok tt, a') /\
    rows (tree a') = rows (tree a) /\
    ((exists i l,
        selection (tree a') = Some i /\ nth_error ls i = Some l /\
        floor_second (startTimeMs l) <= P /\
        forall j l', nth_error ls j = Some l' ->
                     floor_second (startTimeMs l') <= P -> (j <= i)%nat)
     \/
     ((forall l, In l ls -> P < floor_second (startTimeMs l)) /\ a' = a)).
Proof.
  intros Hs Hrows.
  destruct (scan_rows_sorted P ls (rows (tree a)) 0%nat None Hs Hrows)
    as (r & Hr & Hcase).
  unfold update_current_lyric, bind, gets, lift. rewrite Hr.
  destruct Hcase as [[-> Hnone] | (k & l & -> & Hk & Hle & Hmax)].
  - exists a. split; [reflexivity|]. split; [reflexivity|].
    right. split; [exact Hnone | reflexivity].
  - eexists. split; [reflexivity|]. split; [reflexivity|].
    left. exists k, l. cbn. auto.
Qed.

Lemma update_current_lyric_selects_last_floor_second_witness :
  StronglySorted Z.le (map startTimeMs [mkLine 0 "a"; mkLine 5000 "b"]) /\
  exists a',
    update_current_lyric 5000
      (app_showing (Some "x") (map lyric_row [mkLine 0 "a"; mkLine 5000 "b"]))
      = (Ok tt, a') /\
    selection (tree a') = Some 1%nat.
Proof.
  assert (Hs : StronglySorted Z.le
                 (map startTimeMs [mkLine 0 "a"; mkLine 5000 "b"])).
  { repeat constructor; cbn; lia. }
  split; [exact Hs|].
  destruct (update_current_lyric_selects_last_floor_second 5000
              [mkLine 0 "a"; mkLine 5000 "b"]
              (app_showing (Some "x")
                 (map lyric_row [mkLine 0 "a"; mkLine 5000 "b"]))
              Hs eq_refl) as (a' & Hrun & _ & _).
  exists a'. split; [exact Hrun|].
  vm_compute in Hrun. injection Hrun as <-. reflexivity.
Defined.

(** Lines at 0, 5000 and 10000 ms: the positions 4999, 5000 and 0 select
    the lines 0, 1 and 0; before the first line nothing is selected. *)
Example scan_rows_three_lines :
  let items := map lyric_row
                 [mkLine 0 "a"; mkLine 5000 "b"; mkLine 10000 "c"] in
  scan_rows 4999 items 0%nat None = Ok (Some 0%nat) /\
  scan_rows 5000 items 0%nat None = Ok (Some 1%nat) /\
  scan_rows 0 items 0%nat None = Ok (Some 0%nat) /\
  scan_rows (-1) items 0%nat None = Ok None.
Proof. cbv zeta. repeat split; vm_compute; reflexivity. Qed.

(** C2 as stated fails: the line selected can have its offset after the
    position. With lines at 0 and 5500 ms and the position at 5000 ms the
    second line is selected, since its Time cell reads [0:05]. *)
Lemma update_current_lyric_selects_offset_after_position :
  ~ (forall (P : Z) (ls : list Line) (a a' : App) (i : nat),
       StronglySorted Z.le (map startTimeMs ls) ->
       map time_col (rows (tree a))
         = map (fun l => ms_to_min_sec (startTimeMs l)) ls ->
       update_current_lyric P a = (Ok tt, a') ->
       selection (tree a') = Some i ->
       exists l, nth_error ls i = Some l /\ startTimeMs l <= P).
Proof.
  intros H.
  pose (ls := [mkLine 0 "a"; mkLine 5500 "b"]).
  pose (a := app_showing (Some "x") (map lyric_row ls)).
  destruct (H 5000 ls a (with_tree (mkTree (rows (tree a)) (Some 1%nat)) a)
              1%nat) as (l & Hl & Hle).
  - repeat constructor; cbn; lia.
  - reflexivity.
  - vm_compute. reflexivity.
  - reflexivity.
  - cbn in Hl. injection Hl as <-. cbn in Hle. lia.
Qed.

(* ================================================================== *)
(** ** The translation cache *)

Section DictFacts.

Context {V : Type}.
Implicit Types (d : PyDict.dict V) (k : string) (v : V).

Lemma get_set_same d k v : PyDict.get k (PyDict.set k v d) = Some v.
Proof.
  induction d as [|[k' v'] d IH]; cbn.
  - rewrite String.eqb_refl. reflexivity.
  - destruct (String.eqb k' k) eqn:E; cbn; rewrite E; auto.
Qed.

Lemma get_set_other d k k' v :
  k' <> k -> PyDict.get k' (PyDict.set k v d) = PyDict.get k' d.
Proof.
  intros Hne. induction d as [|[k1 v1] d IH]; cbn.
  - destruct (String.eqb_spec k k'); congruence.
  - destruct (String.eqb_spec k1 k) as [->|Hk]; cbn.
    + destruct (String.eqb_spec k k'); congruence.
    + rewrite IH. reflexivity.
Qed.

Lemma get_none_not_in d k :
  PyDict.get k d = None <-> ~ In k (PyDict.keys d).
Proof.
  induction d as [|[k' v'] d IH]; cbn.
  - tauto.
  - destruct (String.eqb_spec k' k) as [->|Hk].
    + split; [discriminate | tauto].
    + rewrite IH. tauto.
Qed.

(** Writing a key that is present keeps every key where it is. *)
Lemma set_present_keys d k v old :
  PyDict.get k d = Some old ->
  PyDict.keys (PyDict.set k v d) = PyDict.keys d.
Proof.
  unfold PyDict.keys.
  induction d as [|[k' v'] d IH]; cbn; [discriminate|].
  destruct (String.eqb_spec k' k) as [->|Hk]; cbn; intros H.
  - reflexivity.
  - rewrite (IH H). reflexivity.
Qed.

(** Writing a key that is absent puts it last. *)
Lemma set_absent d k v :
  PyDict.get k d = None -> PyDict.set k v d = (d ++ [(k, v)])%list.
Proof.
  induction d as [|[k' v'] d IH]; cbn; [reflexivity|].
  destruct (String.eqb_spec k' k) as [->|Hk]; [discriminate|].
  intros H. rewrite (IH H). reflexivity.
Qed.

Lemma set_present_length d k v old :
  PyDict.get k d = Some old ->
  List.length (PyDict.set k v d) = List.length d.
Proof.
  intros H. apply (set_present_keys d k v) in H.
  apply (f_equal (@List.length _)) in H.
  unfold PyDict.keys in H. rewrite !length_map in H. exact H.
Qed.

Lemma keys_app d1 d2 :
  PyDict.keys (d1 ++ d2)%list = (PyDict.keys d1 ++ PyDict.keys d2)%list.
Proof. apply map_app. Qed.

End DictFacts.

Lemma skipn_S_tl {A : Type} (n : nat) (l : list A) :
  skipn (S n) l = tl (skipn n l).
Proof.
  revert l. induction n as [|n IH]; intros [|x l]; cbn; auto.
  rewrite <- IH. reflexivity.
Qed.

Section CacheFacts.

Variable max_size : nat.
Implicit Types (c : Cache) (k : string) (v : list TLine).

Lemma cache_put_present c k v old :
  (List.length c <= max_size)%nat ->
  PyDict.get k c = Some old ->
  cache_put max_size k v c = PyDict.set k v c.
Proof.
  intros Hlen Hget. unfold cache_put.
  rewrite (set_present_length c k v old Hget).
  destruct (Nat.ltb_spec max_size (List.length c)); [lia | reflexivity].
Qed.

Lemma cache_put_absent c k v :
  PyDict.get k c = None ->
  cache_put max_size k v c
    = if (max_size <? S (List.length c))%nat
      then tl (c ++ [(k, v)])%list else (c ++ [(k, v)])%list.
Proof.
  intros Hget. unfold cache_put. rewrite (set_absent c k v Hget).
  rewrite length_app, Nat.add_1_r.
  destruct (max_size <? S (List.length c))%nat; [|reflexivity].
  destruct c as [|[k0 v0] c]; cbn; rewrite String.eqb_refl; reflexivity.
Qed.

Lemma cache_put_length c k v :
  (List.length c <= max_size)%nat ->
  (List.length (cache_put max_size k v c) <= max_size)%nat.
Proof.
  intros Hlen. destruct (PyDict.get k c) as [old|] eqn:Hget.
  - rewrite (cache_put_present c k v old Hlen Hget).
    rewrite (set_present_length c k v old Hget). exact Hlen.
  - rewrite (cache_put_absent c k v Hget).
    destruct (Nat.ltb_spec max_size (S (List.length c))).
    + destruct c; cbn in *; [lia|]. rewrite length_app. cbn. lia.
    + rewrite length_app. cbn. lia.
Qed.

Lemma cache_puts_length ops c :
  (List.length c <= max_size)%nat ->
  (List.length (cache_puts max_size ops c) <= max_size)%nat.
Proof.
  revert c. induction ops as [|[k v] ops IH]; intros c Hlen; cbn.
  - exact Hlen.
  - apply IH. apply cache_put_length. exact Hlen.
Qed.

Lemma cache_puts_app ops1 ops2 c :
  cache_puts max_size (ops1 ++ ops2)%list c
    = cache_puts max_size ops2 (cache_puts max_size ops1 c).
Proof. apply fold_left_app. Qed.

(** Distinct keys written to the empty cache: the last [max_size] writes
    are what is left, in the order written. *)
Lemma cache_puts_distinct ops :
  NoDup (map fst ops) ->
  cache_puts max_size ops [] = skipn (List.length ops - max_size) ops.
Proof.
  induction ops as [|[k v] ops IH] using rev_ind; intros Hnd.
  - reflexivity.
  - rewrite map_app in Hnd. cbn in Hnd.
    apply NoDup_remove in Hnd as [Hnd Hk]. rewrite app_nil_r in Hnd, Hk.
    rewrite cache_puts_app, (IH Hnd). cbn [cache_puts fold_left fst snd].
    assert (Habs :
      PyDict.get k (skipn (List.length ops - max_size) ops) = None).
    { apply get_none_not_in. intros Hin. apply Hk.
      unfold PyDict.keys in Hin. apply in_map_iff in Hin as (x & <- & Hx).
      apply in_map.
      rewrite <- (firstn_skipn (List.length ops - max_size) ops).
      apply in_or_app. right. exact Hx. }
    rewrite (cache_put_absent _ k v Habs).
    rewrite length_skipn, length_app. cbn [List.length].
    destruct (Nat.le_gt_cases max_size (List.length ops)) as [Hge|Hlt].
    + destruct (Nat.ltb_spec max_size
                  (S (List.length ops - (List.length ops - max_size))));
        [|lia].
      replace (List.length ops + 1 - max_size)%nat
        with (S (List.length ops - max_size)) by lia.
      rewrite skipn_S_tl, skipn_app.
      replace (List.length ops - max_size - List.length ops)%nat
        with 0%nat by lia.
      reflexivity.
    + destruct (Nat.ltb_spec max_size
                  (S (List.length ops - (List.length ops - max_size))));
        [lia|].
      replace (List.length ops + 1 - max_size)%nat with 0%nat by lia.
      replace (List.length ops - max_size)%nat with 0%nat by lia.
      reflexivity.
Qed.

End CacheFacts.

(* ================================================================== *)
(** ** Running methods *)

Section Frames.

(** [update_translations] writes the tree only. *)
Lemma update_translations_frame (tl : list TLine) (a : App) :
  let a' := snd (update_translations tl a) in
  lyrics_cache a' = lyrics_cache a /\
  current_song_id a' = current_song_id a /\
  cache_file a' = cache_file a /\
  threads a' = threads a /\
  timers a' = timers a.
Proof.
  unfold update_translations. run_method.
  destruct (map (translate_row tl) (rows (tree a))); cbn; [tauto|].
  destruct tl; cbn; tauto.
Qed.

(** The cache reads of [update_lyrics] ([in] and indexing) leave the
    cache as it is. *)
Lemma update_lyrics_keeps_cache (sp : Spotify) (a : App) :
  lyrics_cache (snd (update_lyrics sp a)) = lyrics_cache a.
Proof.
  unfold update_lyrics. run_method.
  destruct (get_current_song sp 1) as [[song|]|e]; cbn; auto.
  destruct (item song) as [it|]; cbn; auto.
  destruct (get_lyrics sp (id it)) as [lyrics|e]; cbn; auto.
  destruct (lyrics_data_of lyrics) as [[|l0 ls]|] eqn:Hdata; cbn; auto.
  destruct lyrics as [[[body|]]|]; cbn in *; try discriminate.
  destruct (language_key body) as [lang|]; cbn; auto.
  unfold PyDict.contains.
  match goal with
  | |- context [PyDict.get ?k ?c] => destruct (PyDict.get k c) as [cached|]
  end; cbn; auto.
  run_method. destruct cached; reflexivity.
Qed.

End Frames.

(* ================================================================== *)
(** ** [translate_words] step by step *)

Section TranslateWords.

Variables (pool : Pool) (lyrics : list Line) (song_name song_id : string).

(** A failed title translation ends the thread before anything is
    submitted. *)
Lemma translate_words_title_fails callback a e :
  on_title pool song_name = Raise e ->
  translate_words pool lyrics song_name song_id callback a = (Raise e, a).
Proof. intros H. unfold translate_words, bind, lift. rewrite H. reflexivity. Qed.

(** Otherwise the cache is written, saved, and the callback runs on the
    delivered list. *)
Lemma translate_words_runs callback a t :
  on_title pool song_name = Ok t ->
  translate_words pool lyrics song_name song_id callback a
    = match callback (delivered pool lyrics) (stored pool lyrics song_id a) with
      | (Ok _, a') => (Ok tt, with_translation_complete true a')
      | (Raise e, a') => (Raise e, a')
      end.
Proof.
  intros H. unfold translate_words, bind, lift, save_cache, modify.
  rewrite H. fold (delivered pool lyrics). unfold stored. cbn.
  destruct (callback (delivered pool lyrics) _) as [[[]|e] a'];
    reflexivity.
Qed.

Lemma translate_words_cache a t :
  on_title pool song_name = Ok t ->
  lyrics_cache
    (snd (translate_words pool lyrics song_name song_id
            update_translations a))
    = cache_put MAX_CACHE_SIZE song_id (delivered pool lyrics)
        (lyrics_cache a).
Proof.
  intros H. rewrite (translate_words_runs _ a t H).
  pose proof (update_translations_frame (delivered pool lyrics)
                (stored pool lyrics song_id a)) as F.
  destruct (update_translations (delivered pool lyrics)
              (stored pool lyrics song_id a)) as [[[]|e] a'];
    cbn in *; destruct F as [-> _]; reflexivity.
Qed.

End TranslateWords.

(* ================================================================== *)
(** ** Claims on the cache *)

(** C3. For a size limit [max_size] of at least one ([translate_words]
    writes with [MAX_CACHE_SIZE], which is 1000): a write keeps the cache
    within the limit, so does every run of writes from the empty cache;
    writing a new key into a full cache drops exactly the first entry, the
    oldest, and puts the new one last; after [max_size + 1] writes of
    distinct keys the cache holds the last [max_size] of them and the key
    written first is gone. Reading the cache in [update_lyrics] leaves it as
    it is, and a translation thread writes it with the limit
    [MAX_CACHE_SIZE]. *)
Theorem cache_put_bounded_fifo (max_size : nat) :
  (0 < max_size)%nat ->
  (forall (c : Cache) k v,
     (List.length c <= max_size)%nat ->
     (List.length (cache_put max_size k v c) <= max_size)%nat) /\
  (forall ops, (List.length (cache_puts max_size ops []) <= max_size)%nat) /\
  (forall (c : Cache) k v,
     PyDict.get k c = None -> List.length c = max_size ->
     cache_put max_size k v c = (tl c ++ [(k, v)])%list) /\
  (forall op ops,
     NoDup (map fst (op :: ops)) -> List.length ops = max_size ->
     cache_puts max_size (op :: ops) [] = ops /\
     PyDict.get (fst op) (cache_puts max_size (op :: ops) []) = None) /\
  (forall sp a, lyrics_cache (snd (update_lyrics sp a)) = lyrics_cache a) /\
  (forall pool j a t,
     on_title pool (job_song_name j) = Ok t ->
     lyrics_cache (snd (run_thread pool j a))
       = cache_put MAX_CACHE_SIZE (job_song_id j)
           (delivered pool (job_lyrics j)) (lyrics_cache a)).
Proof.
  intros Hpos. repeat apply conj.
  - intros c k v. apply cache_put_length.
  - intros ops. apply cache_puts_length. cbn. lia.
  - intros c k v Hget Hlen. rewrite (cache_put_absent max_size c k v Hget).
    rewrite Hlen, (proj2 (Nat.ltb_lt _ _)) by lia.
    destruct c; [cbn in Hlen; lia | reflexivity].
  - intros op ops Hnd Hlen.
    assert (E : cache_puts max_size (op :: ops) [] = ops).
    { rewrite (cache_puts_distinct max_size (op :: ops) Hnd).
      cbn [List.length]. rewrite Hlen.
      replace (S max_size - max_size)%nat with 1%nat by lia. reflexivity. }
    split; [exact E|]. rewrite E. apply get_none_not_in.
    cbn in Hnd. apply NoDup_cons_iff in Hnd as [Hnot _]. exact Hnot.
  - apply update_lyrics_keeps_cache.
  - intros pool j a t Ht. unfold run_thread.
    apply (translate_words_cache _ _ _ _ a t Ht).
Qed.

Lemma cache_put_bounded_fifo_witness :
  ((0 < MAX_CACHE_SIZE)%nat /\
   (List.length (cache_puts MAX_CACHE_SIZE [("A", []); ("B", [])] [])
      <= MAX_CACHE_SIZE)%nat) /\
  ((0 < 2)%nat /\
   NoDup (map fst [("A", @nil TLine); ("B", []); ("C", [])]) /\
   cache_puts 2 [("A", []); ("B", []); ("C", [])] []
     = [("B", []); ("C", [])] /\
   PyDict.get "A" (cache_puts 2 [("A", []); ("B", []); ("C", [])] []) = None).
Proof.
  assert (H1000 : (0 < MAX_CACHE_SIZE)%nat) by (unfold MAX_CACHE_SIZE; lia).
  assert (H2 : (0 < 2)%nat) by lia.
  assert (Hnd : NoDup (map fst [("A", @nil TLine); ("B", []); ("C", [])])).
  { cbn. repeat constructor; cbn; intuition discriminate. }
  split.
  - split; [exact H1000|].
    apply (proj1 (proj2 (cache_put_bounded_fifo MAX_CACHE_SIZE H1000))).
  - split; [exact H2|]. split; [exact Hnd|].
    apply (proj1 (proj2 (proj2 (proj2 (cache_put_bounded_fifo 2 H2))))
             ("A", []) [("B", []); ("C", [])] Hnd eq_refl).
Defined.

(** C7. Writing a key that is present replaces its value and changes
    neither the order of the keys nor any other value; so when the cache is
    full and its first key is written again, the next new key still drops
    that first key, and every other key stays. With a limit of two: after A
    and B, writing A again and then C leaves B and C. *)
Theorem cache_put_overwrite_keeps_order :
  (forall max_size (c : Cache) k v old,
     (List.length c <= max_size)%nat ->
     PyDict.get k c = Some old ->
     PyDict.keys (cache_put max_size k v c) = PyDict.keys c /\
     PyDict.get k (cache_put max_size k v c) = Some v /\
     (forall k', k' <> k ->
        PyDict.get k' (cache_put max_size k v c) = PyDict.get k' c)) /\
  (forall max_size (c : Cache) k v k2 v2,
     (0 < max_size)%nat ->
     List.length c = max_size ->
     NoDup (PyDict.keys c) ->
     PyDict.first_key c = Some k ->
     PyDict.get k2 c = None ->
     let c' := cache_put max_size k2 v2 (cache_put max_size k v c) in
     PyDict.keys c' = (tl (PyDict.keys c) ++ [k2])%list /\
     PyDict.get k c' = None) /\
  (forall va vb va' vc,
     cache_puts 2 [("A", va); ("B", vb); ("A", va')] []
       = [("A", va'); ("B", vb)] /\
     cache_puts 2 [("A", va); ("B", vb); ("A", va'); ("C", vc)] []
       = [("B", vb); ("C", vc)]).
Proof.
  repeat apply conj.
  - intros max_size c k v old Hlen Hget.
    rewrite (cache_put_present max_size c k v old Hlen Hget).
    split; [apply (set_present_keys c k v old Hget)|].
    split; [apply get_set_same|].
    intros k' Hne. apply get_set_other. exact Hne.
  - intros max_size c k v k2 v2 Hpos Hlen Hnd Hfirst Habs c'. subst c'.
    destruct c as [|[k0 v0] rest]; [discriminate|].
    cbn in Hfirst. injection Hfirst as ->.
    assert (Hk : PyDict.get k ((k, v0) :: rest) = Some v0).
    { cbn. rewrite String.eqb_refl. reflexivity. }
    rewrite (cache_put_present max_size _ k v v0 (Nat.eq_le_incl _ _ Hlen) Hk).
    cbn [PyDict.set]. rewrite String.eqb_refl.
    assert (Hne : k <> k2).
    { intros ->. rewrite Hk in Habs. discriminate. }
    assert (Habs' : PyDict.get k2 ((k, v) :: rest) = None).
    { cbn in *. destruct (String.eqb_spec k k2); [contradiction|exact Habs]. }
    rewrite (cache_put_absent max_size _ k2 v2 Habs').
    cbn [List.length] in *. rewrite Hlen, (proj2 (Nat.ltb_lt _ _)) by lia.
    cbn [app tl]. split.
    + rewrite keys_app. reflexivity.
    + apply get_none_not_in. rewrite keys_app. cbn in Hnd.
      apply NoDup_cons_iff in Hnd as [Hnot _].
      intros Hin. apply in_app_or in Hin as [Hin|[Heq|[]]]; [tauto|].
      cbn in Heq. congruence.
  - intros va vb va' vc. split; reflexivity.
Qed.

Lemma cache_put_overwrite_keeps_order_witness :
  let c : Cache := [("A", []); ("B", [])] in
  let v := [mkTLine 0 "hola" "hello"] in
  (List.length c <= 2)%nat /\
  PyDict.get "A" c = Some [] /\
  NoDup (PyDict.keys c) /\
  PyDict.first_key c = Some "A" /\
  PyDict.get "C" c = None /\
  PyDict.keys (cache_put 2 "A" v c) = ["A"; "B"] /\
  PyDict.get "A" (cache_put 2 "A" v c) = Some v /\
  PyDict.keys (cache_put 2 "C" [] (cache_put 2 "A" v c)) = ["B"; "C"] /\
  PyDict.get "A" (cache_put 2 "C" [] (cache_put 2 "A" v c)) = None.
Proof.
  intros c v.
  assert (Hlen : (List.length c <= 2)%nat) by (cbn; lia).
  assert (Hget : PyDict.get "A" c = Some []) by reflexivity.
  assert (Hnd : NoDup (PyDict.keys c)).
  { cbn. repeat constructor; cbn; intuition discriminate. }
  assert (Hfirst : PyDict.first_key c = Some "A") by reflexivity.
  assert (Habs : PyDict.get "C" c = None) by reflexivity.
  destruct cache_put_overwrite_keeps_order as (Hover & Hevict & _).
  destruct (Hover 2%nat c "A" v [] Hlen Hget) as (Hkeys & Hval & _).
  destruct (Hevict 2%nat c "A" v "C" [] ltac:(lia) eq_refl Hnd Hfirst Habs)
    as (Hkeys2 & Hgone).
  repeat split; assumption.
Defined.

(* ================================================================== *)
(** ** The worker pool *)

Section WorkerPool.

Lemma get_app_absent {V : Type} (d1 d2 : PyDict.dict V) k :
  PyDict.get k d1 = None -> PyDict.get k (d1 ++ d2)%list = PyDict.get k d2.
Proof.
  induction d1 as [|[k' v'] d1 IH]; cbn; [reflexivity|].
  destruct (String.eqb k' k); [discriminate | exact IH].
Qed.

(** Within the size limit, what was just written is read back. *)
Lemma get_cache_put_same (max_size : nat) (c : Cache) k v :
  (0 < max_size)%nat ->
  (List.length c <= max_size)%nat ->
  PyDict.get k (cache_put max_size k v c) = Some v.
Proof.
  intros Hpos Hlen.
  destruct (PyDict.get k c) as [old|] eqn:Hget.
  - rewrite (cache_put_present max_size c k v old Hlen Hget).
    apply get_set_same.
  - rewrite (cache_put_absent max_size c k v Hget).
    destruct (Nat.ltb_spec max_size (S (List.length c))).
    + destruct c as [|[k0 v0] c']; [cbn in *; lia|].
      cbn [app tl]. cbn in Hget.
      destruct (String.eqb k0 k); [discriminate|].
      rewrite (get_app_absent _ _ _ Hget). cbn.
      rewrite String.eqb_refl. reflexivity.
    + rewrite (get_app_absent _ _ _ Hget). cbn.
      rewrite String.eqb_refl. reflexivity.
Qed.

(** The results come back as a rearrangement of the futures. *)
Lemma as_completed_seq {A : Type} (futures pre : list A) :
  as_completed (seq (List.length pre) (List.length futures))
               (pre ++ futures)%list = futures.
Proof.
  revert pre. induction futures as [|x fs IH]; intros pre; [reflexivity|].
  cbn [List.length seq]. unfold as_completed in *. cbn [flat_map].
  rewrite nth_error_app2, Nat.sub_diag by lia. cbn [nth_error app].
  f_equal.
  specialize (IH (pre ++ [x])%list).
  rewrite length_app, Nat.add_1_r, <- app_assoc in IH. exact IH.
Qed.

Lemma as_completed_permutation {A : Type} (order : list nat)
    (futures : list A) :
  Permutation order (seq 0 (List.length futures)) ->
  Permutation (as_completed order futures) futures.
Proof.
  intros Hp. unfold as_completed.
  rewrite (Permutation_flat_map _ Hp).
  exact (eq_ind _ (fun l => Permutation l futures) (Permutation_refl _) _
           (eq_sym (as_completed_seq futures []))).
Qed.

Lemma submit_all_length pool i lyrics :
  List.length (submit_all pool i lyrics) = List.length lyrics.
Proof.
  revert i. induction lyrics as [|l ls IH]; intros i; cbn; auto.
Qed.

Lemma submit_all_nth pool lyrics :
  forall i k line,
    nth_error lyrics k = Some line ->
    nth_error (submit_all pool i lyrics) k
      = Some (translate_line (on_line pool (i + k)) line).
Proof.
  induction lyrics as [|l ls IH]; intros i k line Hk.
  - destruct k; discriminate.
  - destruct k as [|k]; cbn in *.
    + injection Hk as <-. rewrite Nat.add_0_r. reflexivity.
    + rewrite (IH (S i) k line Hk). do 3 f_equal. lia.
Qed.

End WorkerPool.

(* ================================================================== *)
(** ** Claims on the translation of lines *)

(** C10. [translate_line] returns a line with the offset and the words of
    its input, whether the remote call answers or raises; the translated
    text is the answer of the call, or the words when it raises. *)
Theorem translate_line_keeps_offset_and_words
    (translator : Translator) (line : Line) :
  t_startTimeMs (translate_line translator line) = startTimeMs line /\
  t_words (translate_line translator line) = words line /\
  translated (translate_line translator line)
    = match translator (words line) with
      | Ok t => t
      | Raise _ => words line
      end.
Proof. unfold translate_line. cbn. auto. Qed.

(** C6. When the title is translated and every future completes, in any
    order: the batch delivers one result per line, a rearrangement of the
    per-line results, each computed from its own line and its own remote
    call only. A line whose call raises is delivered with its words as
    translated text, a line whose call answers with the answer. The
    delivered list is written to the cache under the song id and the cache
    is saved. When the cells on display and the translated texts read back
    as text, the callback returns and the thread runs to its end. *)
Theorem translate_words_line_failure_falls_back
    (pool : Pool) (j : Job) (a : App) (t : string) :
  on_title pool (job_song_name j) = Ok t ->
  job_lyrics j <> [] ->
  Permutation (completion pool) (seq 0 (List.length (job_lyrics j))) ->
  (List.length (lyrics_cache a) <= MAX_CACHE_SIZE)%nat ->
  let result := delivered pool (job_lyrics j) in
  let a' := snd (run_thread pool j a) in
  Permutation result (submit_all pool 0%nat (job_lyrics j)) /\
  List.length result = List.length (job_lyrics j) /\
  (forall i line,
     nth_error (job_lyrics j) i = Some line ->
     In (translate_line (on_line pool i) line) result /\
     (forall e, on_line pool i (words line) = Raise e ->
        In (mkTLine (startTimeMs line) (words line) (words line)) result) /\
     (forall t', on_line pool i (words line) = Ok t' ->
        In (mkTLine (startTimeMs line) (words line) t') result)) /\
  PyDict.get (job_song_id j) (lyrics_cache a') = Some result /\
  cache_file a' = Some (Pickled (lyrics_cache a')) /\
  (cells_read_back_as_text (rows (tree a)) = true ->
   translations_read_back_as_text result = true ->
   fst (run_thread pool j a) = Ok tt /\
   translation_complete a' = true).
Proof.
  intros Htitle Hne Hperm Hlen result a'.
  assert (Hres : Permutation result (submit_all pool 0%nat (job_lyrics j))).
  { apply as_completed_permutation. rewrite submit_all_length. exact Hperm. }
  assert (Hin : forall i line,
             nth_error (job_lyrics j) i = Some line ->
             In (translate_line (on_line pool i) line) result).
  { intros i line Hi.
    apply (Permutation_in _ (Permutation_sym Hres)).
    apply (nth_error_In _ i).
    rewrite (submit_all_nth pool _ 0%nat i line Hi). reflexivity. }
  split; [exact Hres|].
  split; [rewrite (Permutation_length Hres); apply submit_all_length|].
  split.
  - intros i line Hi. specialize (Hin i line Hi).
    unfold translate_line in Hin. split; [exact Hin|].
    split; intros x Hx; rewrite Hx in Hin; exact Hin.
  - unfold a', run_thread.
    rewrite (translate_words_runs _ _ _ _ _ a t Htitle). fold result.
    pose proof (update_translations_frame result
                  (stored pool (job_lyrics j) (job_song_id j) a)) as F.
    assert (Hok : fst (update_translations result
                    (stored pool (job_lyrics j) (job_song_id j) a)) = Ok tt).
    { unfold update_translations. run_method.
      destruct (map _ _) as [|r rs]; [reflexivity|].
      destruct result as [|x xs] eqn:E; [|reflexivity].
      exfalso. apply Permutation_nil in Hres.
      destruct (job_lyrics j); [congruence | discriminate]. }
    destruct (update_translations result _) as [r a1] eqn:Hrun.
    cbn in Hok, F. subst r. destruct F as (Fc & _ & Ff & _).
    cbn [fst snd lyrics_cache cache_file translation_complete
         with_translation_complete].
    rewrite Fc, Ff. unfold stored. cbn. fold result.
    split; [|split; [reflexivity | intros _ _; split; reflexivity]].
    apply get_cache_put_same; [unfold MAX_CACHE_SIZE; lia | exact Hlen].
Qed.

Lemma translate_words_line_failure_falls_back_witness :
  let pool := shuffled_pool (Some 2%nat) in
  let j := mkJob five_lines "cancion" "x" in
  let a := app_showing (Some "x") (map lyric_row five_lines) in
  on_title pool (job_song_name j) = Ok "cancion" /\
  job_lyrics j <> [] /\
  Permutation (completion pool) (seq 0 (List.length (job_lyrics j))) /\
  (List.length (lyrics_cache a) <= MAX_CACHE_SIZE)%nat /\
  cells_read_back_as_text (rows (tree a)) = true /\
  translations_read_back_as_text (delivered pool five_lines) = true /\
  List.length (delivered pool five_lines) = 5%nat /\
  In (mkTLine 2000 "tres" "tres") (delivered pool five_lines) /\
  In (mkTLine 1000 "dos" "[dos]") (delivered pool five_lines) /\
  fst (run_thread pool j a) = Ok tt.
Proof.
  intros pool j a.
  assert (Ht : on_title pool (job_song_name j) = Ok "cancion")
    by reflexivity.
  assert (Hne : job_lyrics j <> []) by discriminate.
  assert (Hp : Permutation (completion pool)
                 (seq 0 (List.length (job_lyrics j))))
    by (cbn; explicit_permutation).
  assert (Hlen : (List.length (lyrics_cache a) <= MAX_CACHE_SIZE)%nat)
    by (unfold MAX_CACHE_SIZE; cbn; lia).
  assert (Hcells : cells_read_back_as_text (rows (tree a)) = true)
    by (vm_compute; reflexivity).
  assert (Htexts : translations_read_back_as_text (delivered pool five_lines)
                   = true) by (vm_compute; reflexivity).
  destruct (translate_words_line_failure_falls_back pool j a "cancion"
              Ht Hne Hp Hlen) as (_ & Hl & Hlines & _ & _ & Hok).
  do 6 (split; [assumption|]).
  split; [exact Hl|]. split; [|split].
  - exact (proj1 (proj2 (Hlines 2%nat (mkLine 2000 "tres") eq_refl))
             RemoteError eq_refl).
  - exact (proj2 (proj2 (Hlines 1%nat (mkLine 1000 "dos") eq_refl))
             "[dos]" eq_refl).
  - exact (proj1 (Hok Hcells Htexts)).
Defined.

(** C1, on the code. Five lines at 0, 1000, 2000, 3000 and 4000 ms, whose
    futures complete in the order 3, 0, 4, 1, 2: the list written to the
    cache and handed to the callback has the offsets 3000, 0, 4000, 1000,
    2000, the order of completion, and the first row of the tree is given
    the translation of the line at 3000 ms by the [translated_lyrics[0]]
    assignment of [update_translations]. *)
Theorem translate_words_delivers_completion_order :
  let pool := shuffled_pool None in
  let a := app_showing (Some "x") (map lyric_row five_lines) in
  let a' := snd (translate_words pool five_lines "cancion" "x"
                   update_translations a) in
  Permutation (completion pool) (seq 0 (List.length five_lines)) /\
  map startTimeMs five_lines = [0; 1000; 2000; 3000; 4000] /\
  fst (translate_words pool five_lines "cancion" "x" update_translations a)
    = Ok tt /\
  map t_startTimeMs (delivered pool five_lines)
    = [3000; 0; 4000; 1000; 2000] /\
  PyDict.get "x" (lyrics_cache a') = Some (delivered pool five_lines) /\
  map translated_col (rows (tree a'))
    = ["[cuatro]"; "[dos]"; "[tres]"; "[cuatro]"; "[cinco]"].
Proof.
  cbv zeta. split; [cbn; explicit_permutation|].
  repeat split; vm_compute; reflexivity.
Qed.

(* ================================================================== *)
(** ** A result arriving for another track *)


Lemma rows_after_update_length tl rs :
  List.length (rows_after_update tl rs) = List.length rs.
Proof.
  unfold rows_after_update.
  rewrite <- (length_map (translate_row tl) rs).
  destruct (map (translate_row tl) rs); [reflexivity|].
  destruct tl; reflexivity.
Qed.



(** ** Cells that read back as text *)

Lemma int_rejects_not_digit (c : ascii) (d : option Decimal.uint) :
  int_rejects c = true -> uint_of_char c d = None.
Proof.
  destruct d as [d|]; [|reflexivity].
  destruct c as [[] [] [] [] [] [] [] []]; intros H;
    solve [reflexivity | discriminate H].
Qed.

Lemma holds_rejected_not_digits (s : string) :
  holds_rejected s = true -> NilEmpty.uint_of_string s = None.
Proof.
  induction s as [|c s IH]; [discriminate|].
  cbn [holds_rejected NilEmpty.uint_of_string]. intros H.
  apply orb_true_iff in H. destruct H as [H | H].
  - apply int_rejects_not_digit. exact H.
  - rewrite (IH H). reflexivity.
Qed.

(** A cell that [reads_back_as_text] is one that [int(...)] refuses. *)
Lemma reads_back_as_text_not_int (s : string) :
  reads_back_as_text s = true -> PyStr.int_of_str s = None.
Proof.
  unfold PyStr.int_of_str, NilZero.int_of_string.
  destruct s as [|a s']; [reflexivity|]. cbn [reads_back_as_text]. intros H.
  destruct (Ascii.eqb_spec a "-") as [-> | _].
  - cbn in H. unfold NilZero.uint_of_string.
    destruct s' as [|b s'']; [discriminate|].
    rewrite (holds_rejected_not_digits _ H). reflexivity.
  - unfold NilZero.uint_of_string.
    rewrite (holds_rejected_not_digits _ H). reflexivity.
Qed.

(** The Time text of any offset reads back as text: it holds a colon. *)
Lemma holds_rejected_app (s1 s2 : string) :
  holds_rejected (s1 ++ s2) = holds_rejected s1 || holds_rejected s2.
Proof.
  induction s1 as [|c s1 IH]; [reflexivity|].
  cbn. rewrite IH, orb_assoc. reflexivity.
Qed.

Lemma ms_to_min_sec_reads_back_as_text (ms : Z) :
  reads_back_as_text (ms_to_min_sec ms) = true.
Proof.
  assert (H : holds_rejected (ms_to_min_sec ms) = true).
  { unfold ms_to_min_sec. rewrite !holds_rejected_app. cbn.
    rewrite orb_true_r. reflexivity. }
  unfold reads_back_as_text. destruct (ms_to_min_sec ms); [reflexivity|].
  exact H.
Qed.

(** Rows freshly written by [update_lyrics] from lines whose words read
    back as text have cells that all read back as text. *)
Lemma lyric_rows_read_back_as_text (ls : list Line) :
  words_read_back_as_text ls = true ->
  cells_read_back_as_text (map lyric_row ls) = true.
Proof.
  unfold words_read_back_as_text, cells_read_back_as_text.
  induction ls as [|l ls IH]; [reflexivity|]. cbn [forallb map].
  intros H. apply andb_true_iff in H. destruct H as [Hl Hls].
  rewrite (IH Hls), andb_true_r.
  unfold row_reads_back_as_text, lyric_row. cbn.
  rewrite ms_to_min_sec_reads_back_as_text, Hl. reflexivity.
Qed.









(* ================================================================== *)
(** ** The poll tick *)

Section PollTick.

Variables (sp : Spotify) (a : App).

(** A failure of the playback query is caught inside
    [get_current_playback_position]: the tick shows that no song plays
    and schedules the next tick. *)
Lemma update_display_playback_failure e :
  get_current_song sp 0%nat = Raise e ->
  update_display sp a
    = (Ok tt,
       with_timers (S (timers a)) (with_song_label "No song playing" a)).
Proof.
  intros H. unfold update_display, get_current_playback_position.
  rewrite H. reflexivity.
Qed.

(** On a change of track, an exception of [get_lyrics] leaves
    [update_display] before [root.after] is reached. *)
Lemma update_display_lyrics_failure song it e :
  get_current_song sp 0%nat = Ok (Some song) ->
  get_current_song sp 1%nat = Ok (Some song) ->
  item song = Some it ->
  duration_ms it <> 0 ->
  current_song_id a <> Some (id it) ->
  get_lyrics sp (id it) = Raise e ->
  fst (update_display sp a) = Raise e /\
  timers (snd (update_display sp a)) = timers a.
Proof.
  intros H0 H1 Hit Hd Hcur Hl.
  unfold update_display, get_current_playback_position, update_lyrics.
  rewrite H0. run_method. rewrite Hit. cbn.
  destruct (Z.eqb_spec (duration_ms it) 0) as [|_]; [contradiction|]. cbn.
  destruct (current_song_id a) as [c|] eqn:Ec.
  - destruct (String.eqb_spec (id it) c) as [Heq|_]; [congruence|].
    cbn. rewrite H1. cbn. rewrite Hit. cbn. rewrite Hl. cbn. auto.
  - cbn. rewrite H1. cbn. rewrite Hit. cbn. rewrite Hl. cbn. auto.
Qed.

(** With no lines to show, [update_lyrics] leaves exactly the
    placeholder row and starts no thread. *)
Lemma update_lyrics_placeholder song it lyrics :
  get_current_song sp 1%nat = Ok (Some song) ->
  item song = Some it ->
  get_lyrics sp (id it) = Ok lyrics ->
  lyrics_data_of lyrics = None \/ lyrics_data_of lyrics = Some [] ->
  fst (update_lyrics sp a) = Ok tt /\
  tree (snd (update_lyrics sp a)) = mkTree [placeholder_row] None /\
  threads (snd (update_lyrics sp a)) = threads a /\
  lyrics_cache (snd (update_lyrics sp a)) = lyrics_cache a.
Proof.
  intros H1 Hit Hl Hdata. unfold update_lyrics. run_method.
  rewrite H1. cbn. rewrite Hit. cbn. rewrite Hl. cbn.
  destruct Hdata as [-> | ->]; cbn; auto.
Qed.

(** While the track stays the same, a tick makes no call to
    [get_lyrics]: its outcome is the same whatever that call would
    answer. *)
Lemma update_display_same_track_no_fetch song it other :
  get_current_song sp 0%nat = Ok (Some song) ->
  item song = Some it ->
  current_song_id a = Some (id it) ->
  update_display sp a
    = update_display (mkSpotify (get_current_song sp) other) a.
Proof.
  intros H0 Hit Hcur.
  unfold update_display, get_current_playback_position.
  cbn [get_current_song]. rewrite H0. run_method. rewrite Hit. cbn.
  destruct (duration_ms it =? 0); [reflexivity|]. cbn.
  rewrite Hcur, String.eqb_refl. reflexivity.
Qed.

End PollTick.

(** C5, on the code. The playback query answers, the track is new, and
    [get_lyrics] raises: [update_display] raises the same exception, no next
    tick is scheduled, and no later tick runs. When it is the playback query
    that raises, the tick ends normally with the next one scheduled. *)
Theorem update_display_lyrics_failure_stops_polling :
  let sp := mkSpotify (fun _ => Ok (Some playing_x))
                      (fun _ => Raise RemoteError) in
  let sp0 := mkSpotify (fun _ => Raise RemoteError)
                       (fun _ => Raise RemoteError) in
  let a := app_showing None [] in
  fst (update_display sp a) = Raise RemoteError /\
  timers (snd (update_display sp a)) = timers a /\
  timers (mainloop_tick sp a) = 0%nat /\
  (forall sp', mainloop_tick sp' (mainloop_tick sp a) = mainloop_tick sp a) /\
  fst (update_display sp0 a) = Ok tt /\
  timers (mainloop_tick sp0 a) = 1%nat.
Proof.
  cbv zeta. repeat split; vm_compute; reflexivity.
Qed.

(** C9, on the code. [get_lyrics] answers with one line and no
    ['language'] key: [update_display] raises [KeyError] after the tree has
    been emptied, so no row is on display, not even the placeholder, and no
    next tick is scheduled. *)
Theorem update_display_missing_language_shows_no_row :
  let body := mkLyricsBody (Some [mkLine 0 "hola"]) None in
  let sp := mkSpotify (fun _ => Ok (Some playing_x))
                      (fun _ => Ok (Some (mkLyricsJson (Some body)))) in
  let a := app_showing None [placeholder_row] in
  fst (update_display sp a) = Raise KeyError /\
  rows (tree (snd (update_display sp a))) = [] /\
  timers (mainloop_tick sp a) = 0%nat.
Proof.
  cbv zeta. repeat split; vm_compute; reflexivity.
Qed.

(** C8, on the code. A missing store gives the empty cache and the first
    tick is scheduled; a store that deserialises gives its cache; a store
    that does not deserialise makes [initialize_main_gui] raise, with no
    application object and no tick scheduled. *)
Theorem initialize_main_gui_corrupt_store_raises :
  initialize_main_gui None
    = Ok (mkApp None false "" [] "Loading..." (mkTree [] None) None []
                1%nat) /\
  (forall c, exists a,
     initialize_main_gui (Some (Pickled c)) = Ok a /\
     lyrics_cache a = c /\ timers a = 1%nat) /\
  initialize_main_gui (Some Garbage) = Raise UnpicklingError.
Proof.
  split; [reflexivity|]. split; [|reflexivity].
  intros c. eexists. split; [reflexivity|]. split; reflexivity.
Qed.

(* ================================================================== *)
(** * Further properties of the code *)

(** ** The Time column *)

Lemma ms_to_min_sec_of_second (ms : Z) :
  ms / 60000 = ms / 1000 / 60 /\
  ms mod 60000 / 1000 = (ms / 1000) mod 60.
Proof. split; Z.div_mod_to_equations; lia. Qed.

(** X1. Reading back the Time text of an offset, the way
    [update_current_lyric] does, never raises and gives the offset cut down
    to the whole second: at most the offset, and less than a second below
    it. Negative offsets included. *)
Theorem time_cell_round_trip (ms : Z) :
  start_time_of (ms_to_min_sec ms) = Ok (floor_second ms) /\
  floor_second ms <= ms < floor_second ms + 1000.
Proof.
  split; [apply start_time_of_ms_to_min_sec|].
  unfold floor_second. Z.div_mod_to_equations. lia.
Qed.

(** X2. Two offsets are shown with the same Time text exactly when they
    fall in the same second. *)
Theorem ms_to_min_sec_same_second (a b : Z) :
  ms_to_min_sec a = ms_to_min_sec b <-> a / 1000 = b / 1000.
Proof.
  split.
  - intros H. apply (f_equal start_time_of) in H.
    rewrite !start_time_of_ms_to_min_sec in H. injection H as H.
    unfold floor_second in H. lia.
  - intros H. unfold ms_to_min_sec.
    destruct (ms_to_min_sec_of_second a) as [-> ->].
    destruct (ms_to_min_sec_of_second b) as [-> ->].
    rewrite H. reflexivity.
Qed.

Lemma ms_to_min_sec_same_second_witness :
  5000 / 1000 = 5999 / 1000 /\ ms_to_min_sec 5000 = ms_to_min_sec 5999.
Proof.
  assert (H : 5000 / 1000 = 5999 / 1000) by reflexivity.
  split; [exact H|]. exact (proj2 (ms_to_min_sec_same_second 5000 5999) H).
Defined.

(** ** The scan of [update_current_lyric], without any assumption of order *)

Lemma scan_rows_prefix (P : Z) (items : list Row) :
  forall i acc r,
    scan_rows P items i acc = Ok r ->
    exists n,
      qualifying_prefix P items n /\
      r = match n with
          | O => acc
          | S k => Some (i + k)%nat
          end.
Proof.
  induction items as [|it items IH]; intros i acc r H; cbn in H.
  - injection H as <-. exists 0%nat. split; [|reflexivity].
    split; [cbn; lia|]. split.
    + intros k row Hk. lia.
    + intros row Hrow. discriminate.
  - destruct (start_time_of (time_col it)) as [z|e] eqn:Hz; [|discriminate].
    destruct (Z.leb_spec z P) as [Hle|Hgt].
    + destruct (IH _ _ _ H) as (n & (Hn & Hbefore & Hat) & Hr).
      exists (S n). split.
      * split; [cbn; lia|]. split.
        -- intros k row Hk Hrow. destruct k as [|k].
           ++ cbn in Hrow. injection Hrow as <-. exists z. auto.
           ++ cbn in Hrow. apply (Hbefore k row); [lia | exact Hrow].
        -- intros row Hrow. cbn in Hrow. apply Hat. exact Hrow.
      * subst r. destruct n as [|k]; f_equal; lia.
    + injection H as <-. exists 0%nat. split; [|reflexivity].
      split; [cbn; lia|]. split.
      * intros k row Hk. lia.
      * intros row Hrow. cbn in Hrow. injection Hrow as <-. exists z. auto.
Qed.

Lemma scan_rows_readable (P : Z) (items : list Row) :
  rows_readable items ->
  forall i acc, exists r, scan_rows P items i acc = Ok r.
Proof.
  induction 1 as [|it items [z Hz] _ IH]; intros i acc; cbn.
  - eauto.
  - rewrite Hz. destruct (z <=? P); [apply IH | eauto].
Qed.

Lemma update_current_lyric_run (P : Z) (a : App) (r : option nat) :
  scan_rows P (rows (tree a)) 0%nat None = Ok r ->
  update_current_lyric P a
    = (Ok tt,
       match r with
       | Some i => with_tree (mkTree (rows (tree a)) (Some i)) a
       | None => a
       end).
Proof.
  intros H. unfold update_current_lyric, bind, gets, lift. rewrite H.
  destruct r; reflexivity.
Qed.

(** X3. Whatever the order of the rows, as long as their Time cells read
    back: [update_current_lyric] returns without raising, leaves the rows as
    they are, and selects the last row of the longest run of rows, counted
    from the top, that are at or before the position; a row further down is
    never selected, even when it is at or before the position too. With no
    such run the application object is left as it was. *)
Theorem update_current_lyric_selects_end_of_first_run (P : Z) (a : App) :
  rows_readable (rows (tree a)) ->
  exists a' n,
    update_current_lyric P a = (Ok tt, a') /\
    qualifying_prefix P (rows (tree a)) n /\
    rows (tree a') = rows (tree a) /\
    match n with
    | O => a' = a
    | S k => selection (tree a') = Some k
    end.
Proof.
  intros Hread.
  destruct (scan_rows_readable P _ Hread 0%nat None) as [r Hr].
  destruct (scan_rows_prefix P _ _ _ _ Hr) as (n & Hn & Hrn).
  rewrite (update_current_lyric_run P a r Hr).
  eexists. exists n. split; [reflexivity|]. split; [exact Hn|].
  subst r. destruct n; cbn; auto.
Qed.

Lemma update_current_lyric_selects_end_of_first_run_witness :
  let a := app_showing (Some "x")
             (map lyric_row [mkLine 0 "a"; mkLine 9000 "b"; mkLine 3000 "c"]) in
  rows_readable (rows (tree a)) /\
  exists a',
    update_current_lyric 5000 a = (Ok tt, a') /\
    selection (tree a') = Some 0%nat.
Proof.
  intros a.
  assert (Hread : rows_readable (rows (tree a))).
  { repeat constructor; eexists; vm_compute; reflexivity. }
  split; [exact Hread|].
  destruct (update_current_lyric_selects_end_of_first_run 5000 a Hread)
    as (a' & n & Hrun & _ & _ & _).
  exists a'. split; [exact Hrun|].
  vm_compute in Hrun. injection Hrun as <-. reflexivity.
Defined.

(** X4. The selection never moves up when the position advances: from a
    tree with nothing selected, if a position selects row [i], every later
    position selects a row at or below it. *)
Theorem update_current_lyric_monotone (P P' : Z) (a : App) (i : nat) :
  rows_readable (rows (tree a)) ->
  selection (tree a) = None ->
  P <= P' ->
  selection (tree (snd (update_current_lyric P a))) = Some i ->
  exists i',
    selection (tree (snd (update_current_lyric P' a))) = Some i' /\
    (i <= i')%nat.
Proof.
  intros Hread Hsel Hle Hi.
  destruct (scan_rows_readable P _ Hread 0%nat None) as [r Hr].
  destruct (scan_rows_readable P' _ Hread 0%nat None) as [r' Hr'].
  rewrite (update_current_lyric_run P a r Hr) in Hi.
  rewrite (update_current_lyric_run P' a r' Hr').
  destruct (scan_rows_prefix P _ _ _ _ Hr) as (n & (Hn & Hbefore & _) & Hrn).
  destruct (scan_rows_prefix P' _ _ _ _ Hr') as (n' & (Hn' & _ & Hat') & Hrn').
  subst r r'.
  destruct n as [|k]; cbn in Hi; [congruence|].
  injection Hi as <-.
  assert (Hnn : (S k <= n')%nat).
  { destruct (Nat.le_gt_cases (S k) n') as [|Hlt]; [assumption|exfalso].
    destruct (nth_error (rows (tree a)) n') as [row|] eqn:Hrow.
    - destruct (Hbefore n' row Hlt Hrow) as (z & Hz & Hzle).
      destruct (Hat' row eq_refl) as (z' & Hz' & Hzgt).
      rewrite Hz in Hz'. injection Hz' as <-. lia.
    - apply nth_error_None in Hrow. lia. }
  destruct n' as [|k']; [lia|].
  exists k'. cbn. split; [reflexivity | lia].
Qed.

Lemma update_current_lyric_monotone_witness :
  let a := app_showing (Some "x")
             (map lyric_row [mkLine 0 "a"; mkLine 5000 "b"; mkLine 9000 "c"]) in
  rows_readable (rows (tree a)) /\
  selection (tree a) = None /\
  4000 <= 9500 /\
  selection (tree (snd (update_current_lyric 4000 a))) = Some 0%nat /\
  exists i',
    selection (tree (snd (update_current_lyric 9500 a))) = Some i' /\
    (0 <= i')%nat.
Proof.
  intros a.
  assert (Hread : rows_readable (rows (tree a))).
  { repeat constructor; eexists; vm_compute; reflexivity. }
  assert (Hsel : selection (tree a) = None) by reflexivity.
  assert (Hle : 4000 <= 9500) by lia.
  assert (H0 : selection (tree (snd (update_current_lyric 4000 a)))
               = Some 0%nat) by (vm_compute; reflexivity).
  do 4 (split; [assumption|]).
  exact (update_current_lyric_monotone 4000 9500 a 0%nat Hread Hsel Hle H0).
Defined.

(** ** [update_translations] *)

Lemma update_translations_tree (tl : list TLine) (a : App) :
  tree (snd (update_translations tl a))
    = mkTree (rows_after_update tl (rows (tree a))) (selection (tree a)).
Proof.
  unfold update_translations, rows_after_update. run_method.
  destruct (map (translate_row tl) (rows (tree a))); [reflexivity|].
  destruct tl; reflexivity.
Qed.

Lemma translate_row_keeps (tl : list TLine) (r : Row) :
  time_col (translate_row tl r) = time_col r /\
  original_col (translate_row tl r) = original_col r.
Proof.
  unfold translate_row. destruct (matching_lyric tl r); cbn; auto.
Qed.

Lemma rows_after_update_keeps (tl : list TLine) (rs : list Row) :
  map time_col (rows_after_update tl rs) = map time_col rs /\
  map original_col (rows_after_update tl rs) = map original_col rs.
Proof.
  assert (H : map time_col (map (translate_row tl) rs) = map time_col rs /\
              map original_col (map (translate_row tl) rs)
                = map original_col rs).
  { rewrite !map_map. split; apply map_ext; intros r;
      apply (translate_row_keeps tl r). }
  unfold rows_after_update.
  destruct (map (translate_row tl) rs) as [|f rest]; [exact H|].
  destruct tl; exact H.
Qed.

Lemma scan_rows_time_only (P : Z) (rs1 : list Row) :
  forall rs2 i acc,
    map time_col rs1 = map time_col rs2 ->
    scan_rows P rs1 i acc = scan_rows P rs2 i acc.
Proof.
  induction rs1 as [|r1 rs1 IH]; intros [|r2 rs2] i acc H;
    try discriminate; [reflexivity|].
  cbn in H. injection H as Ht H. cbn. rewrite Ht.
  destruct (start_time_of (time_col r2)); [|reflexivity].
  destruct (_ <=? _); [apply IH; exact H | reflexivity].
Qed.

(** X5. Whether it raises or not, [update_translations] leaves the Time
    and Original columns, the number of rows and the selection as they are;
    the scan of [update_current_lyric] therefore gives the same answer
    before and after translations arrive. *)
Theorem update_translations_keeps_time_and_words (tl : list TLine) (a : App) :
  let a' := snd (update_translations tl a) in
  map time_col (rows (tree a')) = map time_col (rows (tree a)) /\
  map original_col (rows (tree a')) = map original_col (rows (tree a)) /\
  List.length (rows (tree a')) = List.length (rows (tree a)) /\
  selection (tree a') = selection (tree a) /\
  forall P,
    scan_rows P (rows (tree a')) 0%nat None
      = scan_rows P (rows (tree a)) 0%nat None.
Proof.
  cbv zeta. rewrite update_translations_tree. cbn.
  destruct (rows_after_update_keeps tl (rows (tree a))) as [Ht Ho].
  split; [exact Ht|]. split; [exact Ho|].
  split; [apply rows_after_update_length|]. split; [reflexivity|].
  intros P. apply scan_rows_time_only. exact Ht.
Qed.

Lemma set_translated_twice x y r :
  set_translated x (set_translated y r) = set_translated x r.
Proof. reflexivity. Qed.

Lemma translate_row_set_translated tl y r :
  set_translated y (translate_row tl r) = set_translated y r.
Proof. unfold translate_row. destruct (matching_lyric tl r); reflexivity. Qed.

Lemma translate_row_twice tl r :
  translate_row tl (translate_row tl r) = translate_row tl r.
Proof.
  unfold translate_row at 2 3.
  destruct (matching_lyric tl r) as [lyric|] eqn:E.
  - unfold translate_row, matching_lyric in *. cbn. rewrite E. reflexivity.
  - unfold translate_row. rewrite E. reflexivity.
Qed.

Lemma translate_row_after_set tl y r :
  set_translated y (translate_row tl (set_translated y r))
    = set_translated y r.
Proof. rewrite translate_row_set_translated. reflexivity. Qed.

Lemma rows_after_update_twice tl rs :
  rows_after_update tl (rows_after_update tl rs) = rows_after_update tl rs.
Proof.
  unfold rows_after_update.
  destruct rs as [|r rs]; [reflexivity|]. cbn [map].
  destruct tl as [|l0 tl'].
  - cbn [map]. rewrite translate_row_twice. f_equal.
    rewrite map_map. apply map_ext. intros x. apply translate_row_twice.
  - cbn [map]. rewrite translate_row_after_set.
    rewrite translate_row_set_translated. f_equal.
    rewrite map_map. apply map_ext. intros x. apply translate_row_twice.
Qed.

Lemma update_translations_full (tl : list TLine) (a : App) :
  update_translations tl a
    = (match rows (tree a), tl with
       | _ :: _, [] => Raise IndexError
       | _, _ => Ok tt
       end,
       with_tree (mkTree (rows_after_update tl (rows (tree a)))
                         (selection (tree a))) a).
Proof.
  unfold update_translations, rows_after_update. run_method.
  destruct (rows (tree a)) as [|r rs]; [destruct tl; reflexivity|].
  cbn [map]. destruct tl; reflexivity.
Qed.

(** X6. Applying the same translated list a second time changes nothing:
    [update_translations] is idempotent, outcome and application object. *)
Theorem update_translations_idempotent (tl : list TLine) (a : App) :
  update_translations tl (snd (update_translations tl a))
    = update_translations tl a.
Proof.
  rewrite (update_translations_full tl a).
  rewrite update_translations_full. cbn.
  rewrite rows_after_update_twice. f_equal.
  pose proof (rows_after_update_length tl (rows (tree a))) as Hlen.
  destruct (rows (tree a)), (rows_after_update tl _); try discriminate;
    reflexivity.
Qed.




(** ** Rows and lines are matched by Time text and words *)








(** ** More on the cache *)

Lemma get_pop_other {V : Type} (d : PyDict.dict V) k k' :
  k' <> k -> PyDict.get k' (PyDict.pop k d) = PyDict.get k' d.
Proof.
  intros Hne. induction d as [|[k1 v1] d IH]; cbn; [reflexivity|].
  destruct (String.eqb_spec k1 k) as [->|Hk]; cbn.
  - destruct (String.eqb_spec k k'); [congruence | reflexivity].
  - rewrite IH. reflexivity.
Qed.

Lemma first_key_set {V : Type} (d : PyDict.dict V) k v k0 :
  PyDict.first_key d = Some k0 ->
  PyDict.first_key (PyDict.set k v d) = Some k0.
Proof.
  destruct d as [|[k1 v1] d]; cbn; [discriminate|].
  intros [= ->]. destruct (String.eqb k0 k); reflexivity.
Qed.

(** X9. A write to the cache removes nothing but the first key: every key
    other than the one written and the first key of the cache reads the
    same value after the write as before, for every size limit and every
    cache. *)
Theorem cache_put_evicts_first_key_only
    (max_size : nat) (c : Cache) (k k' : string) (v : list TLine) :
  k' <> k ->
  PyDict.first_key c <> Some k' ->
  PyDict.get k' (cache_put max_size k v c) = PyDict.get k' c.
Proof.
  intros Hne Hfirst. unfold cache_put.
  destruct (max_size <? _)%nat; [|apply get_set_other; exact Hne].
  destruct (PyDict.first_key (PyDict.set k v c)) as [k0|] eqn:E;
    [|apply get_set_other; exact Hne].
  destruct (String.eqb_spec k0 k') as [->|Hk0].
  - exfalso. destruct c as [|[k1 v1] c'].
    + cbn in E. congruence.
    + rewrite (first_key_set ((k1, v1) :: c') k v k1 eq_refl) in E.
      cbn in Hfirst.
      congruence.
  - rewrite get_pop_other by congruence. apply get_set_other. exact Hne.
Qed.

Lemma cache_put_evicts_first_key_only_witness :
  let c : Cache := [("A", []); ("B", [mkTLine 0 "hola" "hello"])] in
  "B" <> "C" /\
  PyDict.first_key c <> Some "B" /\
  PyDict.get "B" (cache_put 2 "C" [] c) = Some [mkTLine 0 "hola" "hello"].
Proof.
  intros c.
  assert (H1 : "B" <> "C") by discriminate.
  assert (H2 : PyDict.first_key c <> Some "B") by discriminate.
  split; [exact H1|]. split; [exact H2|].
  exact (cache_put_evicts_first_key_only 2 c "C" "B" [] H1 H2).
Defined.

(** X10. One write pops at most once. On a cache that is above the limit
    (as a store written with a larger limit would load): writing a new key
    leaves the length as it was, still above the limit; writing a present
    key shortens the cache by exactly one, which brings it to the limit
    when it was one above and leaves it above the limit when it was two or
    more above; the length after the write is never below the limit; and
    when the present key is the first one, the value just written is what
    is popped. *)
Theorem cache_put_above_limit
    (max_size : nat) (c : Cache) (k : string) (v : list TLine) :
  (max_size < List.length c)%nat ->
  NoDup (PyDict.keys c) ->
  (max_size <= List.length (cache_put max_size k v c))%nat /\
  ((S max_size < List.length c)%nat ->
   (max_size < List.length (cache_put max_size k v c))%nat) /\
  (PyDict.get k c = None ->
   List.length (cache_put max_size k v c) = List.length c) /\
  (forall old, PyDict.get k c = Some old ->
   S (List.length (cache_put max_size k v c)) = List.length c) /\
  (PyDict.first_key c = Some k ->
   PyDict.get k (cache_put max_size k v c) = None).
Proof.
  intros Hlen Hnd.
  assert (Hnew : PyDict.get k c = None ->
                 List.length (cache_put max_size k v c) = List.length c).
  { intros Hget. rewrite (cache_put_absent max_size c k v Hget).
    rewrite (proj2 (Nat.ltb_lt _ _)) by lia.
    destruct c; [cbn in Hlen; lia|]. cbn. rewrite length_app. cbn. lia. }
  assert (Hold : forall old, PyDict.get k c = Some old ->
                 S (List.length (cache_put max_size k v c)) = List.length c).
  { intros old Hget. unfold cache_put.
    rewrite (set_present_length c k v old Hget).
    rewrite (proj2 (Nat.ltb_lt _ _)) by lia.
    destruct c as [|[k0 v0] c']; [discriminate|].
    rewrite (first_key_set ((k0, v0) :: c') k v k0 eq_refl).
    pose proof (set_present_length _ k v old Hget) as Hl.
    destruct (PyDict.set k v ((k0, v0) :: c')) as [|[k1 v1] d] eqn:E;
      [discriminate|].
    assert (k1 = k0).
    { pose proof (first_key_set ((k0, v0) :: c') k v k0 eq_refl) as F.
      rewrite E in F. cbn in F. congruence. }
    subst k1. cbn [PyDict.pop]. rewrite String.eqb_refl.
    cbn in Hl |- *. lia. }
  split; [|split; [|split; [exact Hnew | split; [exact Hold|]]]].
  - destruct (PyDict.get k c) as [old|] eqn:Hget.
    + specialize (Hold old eq_refl). lia.
    + specialize (Hnew eq_refl). lia.
  - intros Htwo. destruct (PyDict.get k c) as [old|] eqn:Hget.
    + specialize (Hold old eq_refl). lia.
    + specialize (Hnew eq_refl). lia.
  - intros Hfirst. destruct c as [|[k0 v0] c']; [discriminate|].
    cbn in Hfirst. injection Hfirst as ->.
    unfold cache_put. cbn [PyDict.set]. rewrite String.eqb_refl.
    cbn [List.length] in *. rewrite (proj2 (Nat.ltb_lt _ _)) by lia.
    cbn [PyDict.first_key PyDict.pop]. rewrite String.eqb_refl.
    apply get_none_not_in. cbn in Hnd.
    apply NoDup_cons_iff in Hnd as [Hnot _]. exact Hnot.
Qed.

Lemma cache_put_above_limit_witness :
  let c : Cache := [("A", []); ("B", []); ("C", [])] in
  (2 < List.length c)%nat /\
  NoDup (PyDict.keys c) /\
  List.length (cache_put 2 "D" [] c) = 3%nat /\
  List.length (cache_put 2 "B" [] c) = 2%nat /\
  PyDict.get "A" (cache_put 2 "A" [mkTLine 0 "hola" "hello"] c) = None.
Proof.
  intros c.
  assert (Hlen : (2 < List.length c)%nat) by (cbn; lia).
  assert (Hnd : NoDup (PyDict.keys c)).
  { cbn. repeat constructor; cbn; intuition discriminate. }
  split; [exact Hlen|]. split; [exact Hnd|].
  destruct (cache_put_above_limit 2 c "D" [] Hlen Hnd)
    as (_ & _ & Hnew & _ & _).
  destruct (cache_put_above_limit 2 c "B" [] Hlen Hnd)
    as (_ & _ & _ & Hold & _).
  destruct (cache_put_above_limit 2 c "A" [mkTLine 0 "hola" "hello"]
              Hlen Hnd) as (_ & _ & _ & _ & Hfirst).
  split; [apply Hnew; reflexivity|].
  split; [|apply Hfirst; reflexivity].
  exact (eq_add_S _ _ (Hold [] eq_refl)).
Defined.

(** ** The poll tick, case by case *)

Lemma update_lyrics_unfold (sp : Spotify) (a : App) :
  update_lyrics sp a
    = match get_current_song sp 1%nat with
      | Raise e => (Raise e, a)
      | Ok None => (Raise TypeError, a)
      | Ok (Some song) =>
          match item song with
          | None => (Raise TypeError, a)
          | Some it =>
              match get_lyrics sp (id it) with
              | Raise e => (Raise e, a)
              | Ok lyrics =>
                  let a1 :=
                    with_tree (mkTree [] None)
                      (with_song_label (name it ++ " - " ++ artist_name it)
                         a) in
                  match lyrics_data_of lyrics with
                  | Some (l0 :: ls) =>
                      match language_of lyrics with
                      | None => (Raise KeyError, a1)
                      | Some lang =>
                          let a2 :=
                            with_translation_complete false
                              (with_tree
                                 (mkTree (map lyric_row (l0 :: ls)) None)
                                 (with_language lang a1)) in
                          match PyDict.get (id it) (lyrics_cache a) with
                          | Some cached => update_translations cached a2
                          | None =>
                              (Ok tt,
                               with_threads
                                 (threads a
                                    ++ [mkJob (l0 :: ls) (name it) (id it)])
                                 a2)
                          end
                      end
                  | _ =>
                      (Ok tt, with_tree (mkTree [placeholder_row] None) a1)
                  end
              end
          end
      end.
Proof.
  unfold update_lyrics, bind, lift, getitem, ret, raise, modify, gets,
    language_of, PyDict.contains.
  destruct (get_current_song sp 1) as [[song|]|e]; try reflexivity.
  destruct (item song) as [it|]; try reflexivity.
  destruct (get_lyrics sp (id it)) as [lyrics|e]; try reflexivity.
  cbv zeta.
  destruct (lyrics_data_of lyrics) as [[|l0 ls]|]; try reflexivity.
  destruct lyrics as [[[body|]]|]; try reflexivity.
  cbn [lyrics_key language_key].
  destruct (language_key body) as [lang|]; try reflexivity.
  cbn [lyrics_cache with_translation_complete with_tree with_language
       with_song_label].
  destruct (PyDict.get (id it) (lyrics_cache a)) as [cached|];
    reflexivity.
Qed.

Lemma update_display_unfold (sp : Spotify) (a : App) :
  update_display sp a
    = match get_current_song sp 0%nat with
      | Ok (Some song) =>
          match item song with
          | None => (Raise TypeError, a)
          | Some it =>
              let a1 :=
                with_song_label (name it ++ " - " ++ artist_name it) a in
              if duration_ms it =? 0 then (Raise ZeroDivisionError, a1)
              else
                let fetch :=
                  match current_song_id a with
                  | Some c => negb (String.eqb (id it) c)
                  | None => true
                  end in
                match (if fetch
                       then update_lyrics sp
                              (with_current_song_id (Some (id it)) a1)
                       else (Ok tt, a1))
                with
                | (Raise e, a2) => (Raise e, a2)
                | (Ok _, a2) =>
                    match update_current_lyric (progress_ms song) a2 with
                    | (Raise e, a3) => (Raise e, a3)
                    | (Ok _, a3) => (Ok tt, with_timers (S (timers a3)) a3)
                    end
                end
          end
      | _ =>
          (Ok tt,
           with_timers (S (timers a)) (with_song_label "No song playing" a))
      end.
Proof.
  unfold update_display, get_current_playback_position, bind, lift, getitem,
    ret, raise, modify, gets.
  destruct (get_current_song sp 0) as [[song|]|e]; try reflexivity.
  destruct (item song) as [it|]; try reflexivity.
  cbv zeta.
  destruct (duration_ms it =? 0); try reflexivity.
  cbn [current_song_id with_song_label].
  destruct (current_song_id a) as [c|].
  - destruct (String.eqb (id it) c); cbn [negb].
    + destruct (update_current_lyric _ _) as [[[]|e] a3]; reflexivity.
    + destruct (update_lyrics sp _) as [[[]|e] a2]; [|reflexivity].
      destruct (update_current_lyric _ _) as [[[]|e] a3]; reflexivity.
  - destruct (update_lyrics sp _) as [[[]|e] a2]; [|reflexivity].
    destruct (update_current_lyric _ _) as [[[]|e] a3]; reflexivity.
Qed.

(** ** What each method writes *)

Lemma with_tree_same (a : App) :
  with_tree (mkTree (rows (tree a)) (selection (tree a))) a = a.
Proof. destruct a as [? ? ? ? ? [rs sel] ? ? ?]. reflexivity. Qed.

Lemma update_current_lyric_effect (P : Z) (a : App) :
  exists sel,
    snd (update_current_lyric P a)
      = with_tree (mkTree (rows (tree a)) sel) a /\
    (sel = selection (tree a) \/
     exists i, sel = Some i /\ (i < List.length (rows (tree a)))%nat).
Proof.
  destruct (scan_rows P (rows (tree a)) 0%nat None) as [r|e] eqn:Hr.
  - rewrite (update_current_lyric_run P a r Hr). cbn [snd].
    destruct (scan_rows_prefix P _ _ _ _ Hr) as (n & (Hn & _) & Hrn).
    destruct n as [|k]; subst r.
    + exists (selection (tree a)). rewrite with_tree_same. auto.
    + exists (Some k). split; [reflexivity|]. right. exists k.
      split; [reflexivity | lia].
  - exists (selection (tree a)). split; [|auto].
    unfold update_current_lyric, bind, gets, lift. rewrite Hr. cbn.
    symmetry. apply with_tree_same.
Qed.

Lemma rows_readable_time_only (rs1 rs2 : list Row) :
  map time_col rs1 = map time_col rs2 ->
  rows_readable rs1 -> rows_readable rs2.
Proof.
  revert rs2. induction rs1 as [|r1 rs1 IH]; intros [|r2 rs2] H Hr;
    try discriminate; [constructor|].
  cbn in H. injection H as Ht H. inversion Hr as [|? ? Hz Hrest]; subst.
  constructor; [rewrite <- Ht; exact Hz | apply IH; assumption].
Qed.

Lemma rows_readable_lyric_rows (ls : list Line) :
  rows_readable (map lyric_row ls).
Proof.
  induction ls as [|l ls IH]; constructor; [|exact IH].
  exists (floor_second (startTimeMs l)). apply start_time_of_ms_to_min_sec.
Qed.

Lemma rows_readable_after_update (tl : list TLine) (rs : list Row) :
  rows_readable rs -> rows_readable (rows_after_update tl rs).
Proof.
  apply rows_readable_time_only. symmetry.
  apply (proj1 (rows_after_update_keeps tl rs)).
Qed.

Lemma rows_readable_placeholder : rows_readable [placeholder_row].
Proof. repeat constructor. exists 0. reflexivity. Qed.

(** The tree that [update_lyrics] leaves: the one it found, when it raised
    before touching it, or rows that read back with nothing selected. *)
Lemma update_lyrics_effect (sp : Spotify) (a : App) :
  let a' := snd (update_lyrics sp a) in
  lyrics_cache a' = lyrics_cache a /\
  cache_file a' = cache_file a /\
  timers a' = timers a /\
  current_song_id a' = current_song_id a /\
  (tree a' = tree a \/
   (selection (tree a') = None /\ rows_readable (rows (tree a')))).
Proof.
  cbv zeta. rewrite update_lyrics_unfold.
  destruct (get_current_song sp 1) as [[song|]|e]; try solve [cbn; auto 6].
  destruct (item song) as [it|]; try solve [cbn; auto 6].
  destruct (get_lyrics sp (id it)) as [lyrics|e]; try solve [cbn; auto 6].
  assert (Hnil : rows_readable []) by constructor.
  pose proof rows_readable_placeholder as Hph.
  cbv zeta.
  destruct (lyrics_data_of lyrics) as [[|l0 ls]|]; try solve [cbn; auto 7].
  destruct (language_of lyrics) as [lang|]; try solve [cbn; auto 7].
  destruct (PyDict.get (id it) (lyrics_cache a)) as [cached|].
  - rewrite update_translations_full. read_fields.
    repeat (split; [reflexivity|]). right. split; [reflexivity|].
    apply rows_readable_after_update.
    apply (rows_readable_lyric_rows (l0 :: ls)).
  - read_fields. repeat (split; [reflexivity|]). right.
    split; [reflexivity|].
    apply (rows_readable_lyric_rows (l0 :: ls)).
Qed.

Lemma update_display_effect (sp : Spotify) (a : App) :
  let r := fst (update_display sp a) in
  let a' := snd (update_display sp a) in
  lyrics_cache a' = lyrics_cache a /\
  cache_file a' = cache_file a /\
  timers a' = match r with
              | Ok _ => S (timers a)
              | Raise _ => timers a
              end /\
  (rows_readable (rows (tree a)) -> rows_readable (rows (tree a'))) /\
  (selection_in_range (tree a) -> selection_in_range (tree a')).
Proof.
  cbv zeta. rewrite update_display_unfold.
  destruct (get_current_song sp 0) as [[song|]|e]; try solve [cbn; auto].
  destruct (item song) as [it|]; try solve [cbn; auto].
  cbv zeta.
  destruct (duration_ms it =? 0); try solve [cbn; auto].
  set (a1 := with_song_label _ a).
  assert (Hstep : forall a2,
    lyrics_cache a2 = lyrics_cache a -> cache_file a2 = cache_file a ->
    timers a2 = timers a ->
    (rows_readable (rows (tree a)) -> rows_readable (rows (tree a2))) ->
    (selection_in_range (tree a) -> selection_in_range (tree a2)) ->
    let res := match update_current_lyric (progress_ms song) a2 with
               | (Raise e, a3) => (Raise e, a3)
               | (Ok _, a3) => (Ok tt, with_timers (S (timers a3)) a3)
               end in
    lyrics_cache (snd res) = lyrics_cache a /\
    cache_file (snd res) = cache_file a /\
    timers (snd res) = match fst res with
                       | Ok _ => S (timers a)
                       | Raise _ => timers a
                       end /\
    (rows_readable (rows (tree a)) -> rows_readable (rows (tree (snd res)))) /\
    (selection_in_range (tree a) -> selection_in_range (tree (snd res)))).
  { intros a2 Hc Hf Ht Hr Hs res. subst res.
    destruct (update_current_lyric_effect (progress_ms song) a2)
      as (sel & Hsnd & Hsel).
    destruct (update_current_lyric (progress_ms song) a2) as [[[]|e] a3];
      cbn in Hsnd |- *; subst a3; cbn;
      (repeat (split; [congruence|]));
      (split; [exact Hr|]); intros Hin; specialize (Hs Hin);
      unfold selection_in_range in *; cbn;
      destruct Hsel as [->|(i & -> & Hi)]; auto. }
  destruct (match current_song_id a with
            | Some c => negb (id it =? c)%string
            | None => true
            end).
  - pose proof (update_lyrics_effect sp
                  (with_current_song_id (Some (id it)) a1)) as E.
    cbv zeta in E. destruct E as (Ec & Ef & Et & _ & Htree).
    destruct (update_lyrics sp _) as [[[]|e] a2]; cbn in Ec, Ef, Et, Htree.
    + apply Hstep; auto.
      * destruct Htree as [-> | [_ Hr]]; auto.
      * destruct Htree as [-> | [Hs _]]; auto.
        intros _. unfold selection_in_range. rewrite Hs. exact I.
    + cbn. repeat (split; [assumption|]). split.
      * destruct Htree as [-> | [_ Hr]]; auto.
      * destruct Htree as [-> | [Hs _]]; auto.
        intros _. unfold selection_in_range. rewrite Hs. exact I.
  - apply Hstep; auto.
Qed.

Lemma run_thread_effect (pool : Pool) (j : Job) (a : App) :
  let a' := snd (run_thread pool j a) in
  timers a' = timers a /\
  current_song_id a' = current_song_id a /\
  threads a' = threads a /\
  (a' = a \/
   (lyrics_cache a'
      = cache_put MAX_CACHE_SIZE (job_song_id j)
          (delivered pool (job_lyrics j)) (lyrics_cache a) /\
    cache_file a' = Some (Pickled (lyrics_cache a')))) /\
  map time_col (rows (tree a')) = map time_col (rows (tree a)) /\
  List.length (rows (tree a')) = List.length (rows (tree a)) /\
  selection (tree a') = selection (tree a).
Proof.
  cbv zeta. unfold run_thread.
  destruct (on_title pool (job_song_name j)) as [t|e] eqn:Ht.
  - rewrite (translate_words_runs _ _ _ _ _ a t Ht).
    rewrite update_translations_full.
    set (res := match rows _, delivered _ _ with
                | _ :: _, [] => Raise IndexError
                | _, _ => Ok tt
                end).
    assert (Hrows :
      map time_col (rows_after_update (delivered pool (job_lyrics j))
                      (rows (tree a))) = map time_col (rows (tree a)))
      by apply rows_after_update_keeps.
    pose proof (rows_after_update_length (delivered pool (job_lyrics j))
                  (rows (tree a))) as Hlen.
    destruct res as [[]|e]; unfold stored; read_fields;
      (repeat (split; [reflexivity|]));
      (split; [right; split; reflexivity|]); auto.
  - rewrite (translate_words_title_fails _ _ _ _ _ a e Ht). cbn. auto 10.
Qed.

Lemma pop_first_key {V : Type} (d : PyDict.dict V) k :
  PyDict.first_key d = Some k -> PyDict.pop k d = tl d.
Proof.
  destruct d as [|[k' v'] d]; cbn; [discriminate|].
  intros [= ->]. rewrite String.eqb_refl. reflexivity.
Qed.

Lemma set_keeps_nodup {V : Type} (d : PyDict.dict V) k v :
  NoDup (PyDict.keys d) -> NoDup (PyDict.keys (PyDict.set k v d)).
Proof.
  intros Hnd. destruct (PyDict.get k d) as [old|] eqn:Hget.
  - rewrite (set_present_keys d k v old Hget). exact Hnd.
  - rewrite (set_absent d k v Hget), keys_app. cbn.
    apply NoDup_app; [exact Hnd | repeat constructor; intros [] |].
    intros x Hx [<-|[]]. apply get_none_not_in in Hget. contradiction.
Qed.

Lemma cache_put_keeps_nodup (max_size : nat) (c : Cache) k v :
  NoDup (PyDict.keys c) -> NoDup (PyDict.keys (cache_put max_size k v c)).
Proof.
  intros Hnd. apply (set_keeps_nodup c k v) in Hnd. unfold cache_put.
  destruct (max_size <? _)%nat; [|exact Hnd].
  destruct (PyDict.first_key (PyDict.set k v c)) as [k0|] eqn:E;
    [|exact Hnd].
  rewrite (pop_first_key _ k0 E).
  destruct (PyDict.set k v c) as [|x d]; [exact Hnd|].
  cbn in *. apply NoDup_cons_iff in Hnd. tauto.
Qed.

Lemma cache_put_in_order (c : Cache) k v :
  cache_in_order c -> cache_in_order (cache_put MAX_CACHE_SIZE k v c).
Proof.
  intros [Hlen Hnd]. split;
    [apply cache_put_length | apply cache_put_keeps_nodup]; assumption.
Qed.

(** An invariant of ticks and thread ends is an invariant of runs. *)
Lemma run_invariant (Inv : App -> Prop) :
  (forall sp a, Inv a -> Inv (mainloop_tick sp a)) ->
  (forall pool j a, Inv a -> Inv (snd (run_thread pool j a))) ->
  forall evs a, Inv a -> Inv (run evs a).
Proof.
  intros Htick Hthread evs. unfold run.
  induction evs as [|ev evs IH]; intros a Ha; [exact Ha|].
  cbn [fold_left]. apply IH. destruct ev; unfold step;
    [apply Htick | apply Hthread]; exact Ha.
Qed.

Lemma mainloop_tick_effect (sp : Spotify) (a : App) :
  lyrics_cache (mainloop_tick sp a) = lyrics_cache a /\
  cache_file (mainloop_tick sp a) = cache_file a /\
  (timers (mainloop_tick sp a) <= timers a)%nat /\
  (rows_readable (rows (tree a)) ->
   rows_readable (rows (tree (mainloop_tick sp a)))) /\
  (selection_in_range (tree a) ->
   selection_in_range (tree (mainloop_tick sp a))).
Proof.
  unfold mainloop_tick. destruct (timers a) as [|n] eqn:Ht.
  - rewrite Ht. auto.
  - pose proof (update_display_effect sp (with_timers n a)) as E.
    cbv zeta in E. read_fields.
    destruct E as (Ec & Ef & Et & Hr & Hs).
    repeat (split; [assumption|]).
    split; [|split; assumption].
    rewrite Et. destruct (fst _); lia.
Qed.

(** ** What holds all along a run *)

(** X11. Ticks never write the cache and a thread writes it through
    [cache_put] only: in the executions where every thread body runs from
    its cache write to its end without another thread body or a tick in
    between, a cache that is within [MAX_CACHE_SIZE] with distinct keys
    stays so after every tick and every thread body, in whatever order
    ticks and thread bodies follow one another and whatever the services
    answer. Executions where two thread bodies overlap are not covered. *)
Theorem run_keeps_cache_in_order (a : App) (evs : list Event) :
  cache_in_order (lyrics_cache a) ->
  cache_in_order (lyrics_cache (run evs a)).
Proof.
  apply (run_invariant (fun a => cache_in_order (lyrics_cache a))).
  - intros sp b Hb.
    rewrite (proj1 (mainloop_tick_effect sp b)). exact Hb.
  - intros pool j b Hb.
    destruct (run_thread_effect pool j b) as (_ & _ & _ & [-> | [-> _]] & _).
    + exact Hb.
    + apply cache_put_in_order. exact Hb.
Qed.

Lemma run_keeps_cache_in_order_witness :
  let a := app_showing (Some "Y") rows_of_y in
  let sp := mkSpotify (fun _ => Ok (Some playing_x))
                      (fun _ => Raise RemoteError) in
  let evs := [ThreadEnd ordered_pool job_of_x; Tick sp] in
  cache_in_order (lyrics_cache a) /\
  cache_in_order (lyrics_cache (run evs a)) /\
  PyDict.keys (lyrics_cache (run evs a)) = ["X"].
Proof.
  intros a sp evs.
  assert (H : cache_in_order (lyrics_cache a)).
  { split; [unfold MAX_CACHE_SIZE; cbn; lia | constructor]. }
  split; [exact H|].
  split; [exact (run_keeps_cache_in_order a evs H)|].
  vm_compute. reflexivity.
Defined.

Lemma initialize_main_gui_persisted store a0 :
  initialize_main_gui store = Ok a0 -> persisted a0.
Proof.
  unfold initialize_main_gui, persisted.
  destruct store as [[c|]|]; cbn; intros [= <-]; reflexivity.
Qed.

Lemma run_keeps_persisted (a : App) (evs : list Event) :
  persisted a -> persisted (run evs a).
Proof.
  apply (run_invariant persisted).
  - intros sp b Hb. unfold persisted.
    destruct (mainloop_tick_effect sp b) as (-> & -> & _). exact Hb.
  - intros pool j b Hb.
    destruct (run_thread_effect pool j b) as (_ & _ & _ & [-> | [_ Hf]] & _).
    + exact Hb.
    + unfold persisted. rewrite Hf. reflexivity.
Qed.

(** X12. The store file follows the cache: in the executions where every
    thread body runs from its cache write to its end without another thread
    body or a tick in between, after every tick and every thread body of a
    run from a start of the application, starting again from the store file
    as it is then gives an application object with the same cache as the
    one in memory. Points inside a thread body, between its cache write and
    its save, and executions where thread bodies overlap, are not
    covered. *)
Theorem restart_restores_cache
    (store : option StoreFile) (a0 : App) (evs : list Event) :
  initialize_main_gui store = Ok a0 ->
  exists a1,
    initialize_main_gui (cache_file (run evs a0)) = Ok a1 /\
    lyrics_cache a1 = lyrics_cache (run evs a0).
Proof.
  intros Hinit.
  pose proof (run_keeps_persisted a0 evs
                (initialize_main_gui_persisted _ _ Hinit)) as Hp.
  unfold persisted in Hp. unfold initialize_main_gui.
  destruct (cache_file (run evs a0)) as [f|].
  - rewrite Hp. eexists. split; reflexivity.
  - eexists. split; [reflexivity|]. cbn. symmetry. exact Hp.
Qed.

Lemma restart_restores_cache_witness :
  let evs := [Tick (mkSpotify (fun _ => Raise RemoteError)
                              (fun _ => Raise RemoteError));
              ThreadEnd ordered_pool job_of_x] in
  exists a0,
    initialize_main_gui None = Ok a0 /\
    exists a1,
      initialize_main_gui (cache_file (run evs a0)) = Ok a1 /\
      lyrics_cache a1 = lyrics_cache (run evs a0) /\
      PyDict.keys (lyrics_cache a1) = ["X"].
Proof.
  intros evs. eexists. split; [reflexivity|].
  destruct (restart_restores_cache None _ evs eq_refl) as (a1 & H1 & H2).
  exists a1. split; [exact H1|]. split; [exact H2|].
  rewrite H2. vm_compute. reflexivity.
Defined.

(** X13. A run never adds a pending tick: ticks fire one at a time, each
    schedules at most one successor, and threads schedule none. After a
    start of the application there is at most one tick pending, and once
    none is pending none ever is. *)
Theorem run_never_adds_ticks (a : App) (evs : list Event) :
  (timers (run evs a) <= timers a)%nat.
Proof.
  apply (run_invariant (fun b => (timers b <= timers a)%nat)); [| |lia].
  - intros sp b Hb.
    destruct (mainloop_tick_effect sp b) as (_ & _ & Ht & _). lia.
  - intros pool j b Hb.
    destruct (run_thread_effect pool j b) as (-> & _). exact Hb.
Qed.

(** X14. After any run from a start of the application, every Time cell
    of the tree reads back as a start time and the selected item is one of
    the rows; so [update_current_lyric] returns without raising, for every
    position. *)
Theorem update_current_lyric_never_raises_in_a_run
    (store : option StoreFile) (a0 : App) (evs : list Event) (P : Z) :
  initialize_main_gui store = Ok a0 ->
  rows_readable (rows (tree (run evs a0))) /\
  selection_in_range (tree (run evs a0)) /\
  fst (update_current_lyric P (run evs a0)) = Ok tt.
Proof.
  intros Hinit.
  assert (H : rows_readable (rows (tree (run evs a0))) /\
              selection_in_range (tree (run evs a0))).
  { apply (run_invariant
             (fun a => rows_readable (rows (tree a)) /\
                       selection_in_range (tree a))).
    - intros sp b [Hr Hs].
      destruct (mainloop_tick_effect sp b) as (_ & _ & _ & Hr' & Hs'). auto.
    - intros pool j b [Hr Hs].
      destruct (run_thread_effect pool j b)
        as (_ & _ & _ & _ & Ht & Hl & Hsel).
      split.
      + apply (rows_readable_time_only _ _ (eq_sym Ht)). exact Hr.
      + unfold selection_in_range in *. rewrite Hsel, Hl. exact Hs.
    - unfold initialize_main_gui in Hinit.
      destruct (match store with Some f => pickle_load f | None => Ok [] end);
        [|discriminate].
      injection Hinit as <-. split; [constructor | exact I]. }
  destruct H as [Hr Hs]. split; [exact Hr|]. split; [exact Hs|].
  destruct (scan_rows_readable P _ Hr 0%nat None) as [r Hscan].
  rewrite (update_current_lyric_run P _ r Hscan). reflexivity.
Qed.

Lemma update_current_lyric_never_raises_in_a_run_witness :
  let lyrics := Some (mkLyricsJson
                        (Some (mkLyricsBody (Some five_lines) (Some "es")))) in
  let sp := mkSpotify (fun _ => Ok (Some playing_x)) (fun _ => Ok lyrics) in
  let evs := [Tick sp; ThreadEnd (shuffled_pool None)
                         (mkJob five_lines "Cancion" "x"); Tick sp] in
  exists a0,
    initialize_main_gui None = Ok a0 /\
    selection (tree (run evs a0)) = Some 1%nat /\
    fst (update_current_lyric 2500 (run evs a0)) = Ok tt.
Proof.
  intros lyrics sp evs. eexists. split; [reflexivity|].
  split; [vm_compute; reflexivity|].
  apply (update_current_lyric_never_raises_in_a_run None _ evs 2500 eq_refl).
Defined.

(** ** Ticks that go well, ticks that do not *)





(** X16. A playback answer without an item (nothing attached to the
    playback), or with an item of duration zero, makes the tick raise,
    [TypeError] or [ZeroDivisionError], before any lyric work: the current
    song id, the tree, the cache and the threads are as before, and the tick
    that fired is not replaced, so the poll loop has one tick less. *)
Theorem update_display_raises_without_item_or_duration
    (sp : Spotify) (a : App) (song : Playback) :
  get_current_song sp 0%nat = Ok (Some song) ->
  (item song = None \/
   exists it, item song = Some it /\ duration_ms it = 0) ->
  let a' := snd (update_display sp a) in
  (fst (update_display sp a) = Raise TypeError \/
   fst (update_display sp a) = Raise ZeroDivisionError) /\
  current_song_id a' = current_song_id a /\
  tree a' = tree a /\
  lyrics_cache a' = lyrics_cache a /\
  threads a' = threads a /\
  timers a' = timers a /\
  timers (mainloop_tick sp a) = Nat.pred (timers a).
Proof.
  intros H0 Hcase.
  assert (H : forall b,
    (fst (update_display sp b) = Raise TypeError \/
     fst (update_display sp b) = Raise ZeroDivisionError) /\
    current_song_id (snd (update_display sp b)) = current_song_id b /\
    tree (snd (update_display sp b)) = tree b /\
    lyrics_cache (snd (update_display sp b)) = lyrics_cache b /\
    threads (snd (update_display sp b)) = threads b /\
    timers (snd (update_display sp b)) = timers b).
  { intros b. rewrite update_display_unfold, H0.
    destruct Hcase as [-> | (it & -> & Hd)].
    - cbn. auto 10.
    - cbv zeta. rewrite Hd. cbn. auto 10. }
  cbv zeta. destruct (H a) as (Hr & Hc & Ht & Hl & Hth & Hti).
  repeat (split; [assumption|]).
  unfold mainloop_tick. destruct (timers a) as [|n] eqn:En; [exact En|].
  destruct (H (with_timers n a)) as (_ & _ & _ & _ & _ & ->). reflexivity.
Qed.

Lemma update_display_raises_without_item_or_duration_witness :
  let sp := mkSpotify (fun _ => Ok (Some (mkPlayback None 0 true)))
                      (fun _ => Raise RemoteError) in
  let a := app_showing (Some "Y") rows_of_y in
  get_current_song sp 0%nat = Ok (Some (mkPlayback None 0 true)) /\
  fst (update_display sp a) = Raise TypeError /\
  timers (mainloop_tick sp a) = 0%nat.
Proof.
  intros sp a.
  destruct (update_display_raises_without_item_or_duration sp a
              (mkPlayback None 0 true) eq_refl (or_introl eq_refl))
    as (Hr & _ & _ & _ & _ & _ & Ht).
  split; [reflexivity|]. split; [|exact Ht].
  destruct Hr as [Hr|Hr]; [exact Hr|]. vm_compute in Hr. discriminate.
Defined.

Lemma update_display_same_track_facts
    (sp : Spotify) (a : App) (song : Playback) (it : Item) :
  get_current_song sp 0%nat = Ok (Some song) ->
  item song = Some it ->
  current_song_id a = Some (id it) ->
  let a' := snd (update_display sp a) in
  (forall sp', get_current_song sp' 0%nat = get_current_song sp 0%nat ->
               update_display sp' a = update_display sp a) /\
  rows (tree a') = rows (tree a) /\
  lyrics_cache a' = lyrics_cache a /\
  threads a' = threads a /\
  current_song_id a' = current_song_id a.
Proof.
  intros H0 Hit Hcur. cbv zeta.
  assert (Hform : forall sp',
    get_current_song sp' 0%nat = Ok (Some song) ->
    update_display sp' a
      = let a1 := with_song_label (name it ++ " - " ++ artist_name it) a in
        if duration_ms it =? 0 then (Raise ZeroDivisionError, a1)
        else match update_current_lyric (progress_ms song) a1 with
             | (Raise e, a3) => (Raise e, a3)
             | (Ok _, a3) => (Ok tt, with_timers (S (timers a3)) a3)
             end).
  { intros sp' H. rewrite update_display_unfold, H, Hit, Hcur.
    cbv zeta. rewrite String.eqb_refl. reflexivity. }
  split.
  - intros sp' H. rewrite (Hform sp') by congruence.
    rewrite (Hform sp H0). reflexivity.
  - rewrite (Hform sp H0). cbv zeta.
    destruct (duration_ms it =? 0); [cbn; auto|].
    destruct (update_current_lyric_effect (progress_ms song)
                (with_song_label (name it ++ " - " ++ artist_name it) a))
      as (sel & Hsnd & _).
    destruct (update_current_lyric _ _) as [[[]|e] a3]; cbn in Hsnd;
      subst a3; cbn; auto.
Qed.

(** X17. While the track stays the current one, a tick makes neither the
    second playback query nor a lyrics fetch: its outcome is the same for
    every service that answers the first playback query alike. It leaves the
    rows, the cache, the threads and the current song id as they are. *)
Theorem update_display_same_track_is_quiet
    (sp : Spotify) (a : App) (song : Playback) (it : Item) :
  get_current_song sp 0%nat = Ok (Some song) ->
  item song = Some it ->
  current_song_id a = Some (id it) ->
  let a' := snd (update_display sp a) in
  (forall sp', get_current_song sp' 0%nat = get_current_song sp 0%nat ->
               update_display sp' a = update_display sp a) /\
  rows (tree a') = rows (tree a) /\
  lyrics_cache a' = lyrics_cache a /\
  threads a' = threads a /\
  current_song_id a' = current_song_id a.
Proof. apply update_display_same_track_facts. Qed.

Lemma update_display_same_track_is_quiet_witness :
  let lyrics := Some (mkLyricsJson
                        (Some (mkLyricsBody (Some five_lines) (Some "es")))) in
  let sp := mkSpotify (fun _ => Ok (Some playing_x)) (fun _ => Ok lyrics) in
  let a := app_showing (Some "x") (map lyric_row five_lines) in
  get_current_song sp 0%nat = Ok (Some playing_x) /\
  current_song_id a = Some "x" /\
  threads (snd (update_display sp a)) = [] /\
  rows (tree (snd (update_display sp a))) = map lyric_row five_lines.
Proof.
  intros lyrics sp a.
  destruct (update_display_same_track_is_quiet sp a playing_x
              (mkItem "x" "Cancion" "Artista" "Album" 180000)
              eq_refl eq_refl eq_refl) as (_ & Hr & _ & Ht & _).
  split; [reflexivity|]. split; [reflexivity|].
  split; [exact Ht | exact Hr].
Defined.

(** X18. A pause does not fetch again: after a tick during which nothing
    plays (the playback query raises or answers nothing), the song label
    says so, and a tick for the track that was current before the pause
    still finds it current: it makes no lyrics fetch, and rows, cache and
    threads are those from before the pause. *)
Theorem update_display_pause_keeps_track
    (sp0 sp : Spotify) (a : App) (song : Playback) (it : Item) :
  (get_current_song sp0 0%nat = Ok None \/
   exists e, get_current_song sp0 0%nat = Raise e) ->
  get_current_song sp 0%nat = Ok (Some song) ->
  item song = Some it ->
  current_song_id a = Some (id it) ->
  let a1 := snd (update_display sp0 a) in
  let a2 := snd (update_display sp a1) in
  fst (update_display sp0 a) = Ok tt /\
  song_label a1 = "No song playing" /\
  (forall sp', get_current_song sp' 0%nat = get_current_song sp 0%nat ->
               update_display sp' a1 = update_display sp a1) /\
  rows (tree a2) = rows (tree a) /\
  lyrics_cache a2 = lyrics_cache a /\
  threads a2 = threads a.
Proof.
  intros Hpause H0 Hit Hcur. cbv zeta.
  assert (E : update_display sp0 a
              = (Ok tt, with_timers (S (timers a))
                          (with_song_label "No song playing" a))).
  { rewrite update_display_unfold.
    destruct Hpause as [-> | [e ->]]; reflexivity. }
  rewrite E. cbn [fst snd].
  destruct (update_display_same_track_facts sp
              (with_timers (S (timers a))
                 (with_song_label "No song playing" a))
              song it H0 Hit Hcur) as (Hq & Hr & Hc & Ht & _).
  split; [reflexivity|]. split; [reflexivity|].
  split; [exact Hq|]. auto.
Qed.

Lemma update_display_pause_keeps_track_witness :
  let sp0 := mkSpotify (fun _ => Raise RemoteError)
                       (fun _ => Raise RemoteError) in
  let sp := mkSpotify (fun _ => Ok (Some playing_x))
                      (fun _ => Raise RemoteError) in
  let a := app_showing (Some "x") (map lyric_row five_lines) in
  (exists e, get_current_song sp0 0%nat = Raise e) /\
  current_song_id a = Some "x" /\
  fst (update_display sp (snd (update_display sp0 a))) = Ok tt /\
  rows (tree (snd (update_display sp (snd (update_display sp0 a)))))
    = map lyric_row five_lines.
Proof.
  intros sp0 sp a.
  assert (Hp : exists e, get_current_song sp0 0%nat = Raise e)
    by (eexists; reflexivity).
  destruct (update_display_pause_keeps_track sp0 sp a playing_x
              (mkItem "x" "Cancion" "Artista" "Album" 180000)
              (or_intror Hp) eq_refl eq_refl eq_refl)
    as (_ & _ & _ & Hr & _).
  split; [exact Hp|]. split; [reflexivity|].
  split; [vm_compute; reflexivity | exact Hr].
Defined.

(** ** A change of track *)







(** X22. With no lyrics to show (no answer, no ['lyrics'], no ['lines'],
    or no line) for a track that is not the current one, the tick goes
    through, starts no thread, leaves the placeholder as the only row, and
    selects it whenever the position is not negative. *)
Theorem update_display_selects_placeholder
    (sp : Spotify) (a : App) (song : Playback) (it : Item)
    (lyrics : option LyricsJson) :
  get_current_song sp 0%nat = Ok (Some song) ->
  get_current_song sp 1%nat = Ok (Some song) ->
  item song = Some it ->
  duration_ms it <> 0 ->
  current_song_id a <> Some (id it) ->
  get_lyrics sp (id it) = Ok lyrics ->
  lyrics_data_of lyrics = None \/ lyrics_data_of lyrics = Some [] ->
  let a' := snd (update_display sp a) in
  fst (update_display sp a) = Ok tt /\
  rows (tree a') = [placeholder_row] /\
  selection (tree a')
    = (if 0 <=? progress_ms song then Some 0%nat else None) /\
  current_song_id a' = Some (id it) /\
  threads a' = threads a /\
  timers a' = S (timers a).
Proof.
  intros H0 H1 Hit Hd Hcur Hl Hdata. cbv zeta.
  rewrite update_display_unfold, H0, Hit. cbv zeta.
  destruct (Z.eqb_spec (duration_ms it) 0) as [|_]; [contradiction|].
  assert (Hfetch : match current_song_id a with
                   | Some c => negb (id it =? c)%string
                   | None => true
                   end = true).
  { destruct (current_song_id a) as [c|]; [|reflexivity].
    destruct (String.eqb_spec (id it) c); [congruence | reflexivity]. }
  rewrite Hfetch, update_lyrics_unfold, H1, Hit, Hl. cbv zeta.
  assert (Hrow : scan_rows (progress_ms song) [placeholder_row] 0%nat None
                 = Ok (if 0 <=? progress_ms song then Some 0%nat else None)).
  { cbn. destruct (0 <=? progress_ms song); reflexivity. }
  destruct Hdata as [-> | ->];
    match goal with
    | |- context [update_current_lyric ?p ?s] =>
        rewrite (update_current_lyric_run p s _ Hrow)
    end;
    destruct (0 <=? progress_ms song); cbn; auto 10.
Qed.

Lemma update_display_selects_placeholder_witness :
  let sp := mkSpotify (fun _ => Ok (Some playing_x)) (fun _ => Ok None) in
  let a := app_showing (Some "Y") rows_of_y in
  current_song_id a <> Some "x" /\
  lyrics_data_of None = None /\
  fst (update_display sp a) = Ok tt /\
  tree (snd (update_display sp a)) = mkTree [placeholder_row] (Some 0%nat).
Proof.
  intros sp a.
  assert (Hcur : current_song_id a <> Some "x") by discriminate.
  destruct (update_display_selects_placeholder sp a playing_x
              (mkItem "x" "Cancion" "Artista" "Album" 180000) None
              eq_refl eq_refl eq_refl ltac:(discriminate) Hcur eq_refl
              (or_introl eq_refl)) as (Hok & Hr & Hs & _).
  split; [exact Hcur|]. split; [reflexivity|]. split; [exact Hok|].
  destruct (tree (snd (update_display sp a))) as [rs sel].
  cbn in Hr, Hs. subst. reflexivity.
Defined.

(** ** Start of the application *)

(** X23. [setup_gui] opens the main window exactly when the config file
    gives a non-empty cookie, the Spotify constructor accepts it, the test
    query does not raise (it may answer that nothing plays), and the cache
    store loads; the application object is then the one
    [initialize_main_gui] builds. In every other case the login dialog is
    shown. *)
Theorem setup_gui_main_window_iff
    (config : option ConfigFile) (account : Account)
    (store : option StoreFile) (a : App) :
  setup_gui config account store = MainGui a
  <-> exists sp_dc,
        load_or_get_spotify_cookie config = Some sp_dc /\
        sp_dc <> "" /\
        connect account sp_dc = Ok tt /\
        (exists s, first_song account = Ok s) /\
        initialize_main_gui store = Ok a.
Proof.
  unfold setup_gui, truthy. split.
  - destruct (load_or_get_spotify_cookie config) as [sp_dc|]; [|discriminate].
    destruct (String.eqb_spec sp_dc ""); cbn; [discriminate|].
    destruct (connect account sp_dc) as [[]|e] eqn:Hc; [|discriminate].
    destruct (first_song account) as [s|e] eqn:Hs; [|discriminate].
    destruct (initialize_main_gui store) as [a0|e] eqn:Hi; [|discriminate].
    intros [= <-]. exists sp_dc. eauto 10.
  - intros (sp_dc & -> & Hne & -> & [s ->] & ->).
    destruct (String.eqb_spec sp_dc ""); [contradiction | reflexivity].
Qed.

Lemma setup_gui_main_window_iff_witness :
  let account := mkAccount (fun _ => Ok tt) (Ok None) in
  exists a,
    initialize_main_gui None = Ok a /\
    setup_gui (Some (ConfigObject (Some "cookie"))) account None = MainGui a.
Proof.
  intros account. eexists. split; [reflexivity|].
  apply (proj2 (setup_gui_main_window_iff
                  (Some (ConfigObject (Some "cookie"))) account None _)).
  exists "cookie". split; [reflexivity|]. split; [discriminate|].
  split; [reflexivity|]. split; [eexists; reflexivity | reflexivity].
Defined.

(** X24. A cache store that does not deserialise keeps the main window
    closed whatever the credentials: [setup_gui] ends in the login dialog,
    and [save_cookie] in an error box, even for a cookie it has verified
    and already written to the config file. *)
Theorem corrupt_store_blocks_the_main_window
    (config : option ConfigFile) (account : Account) (entry : string) :
  (exists err, setup_gui config account (Some Garbage) = LoginDialog err) /\
  (exists config' why,
     save_cookie entry config account (Some Garbage)
       = (config', Refused why)) /\
  (forall s,
     entry <> "" -> connect account entry = Ok tt ->
     first_song account = Ok (Some s) ->
     save_cookie entry config account (Some Garbage)
       = (Some (ConfigObject (Some entry)),
          Refused (InitFailed UnpicklingError))).
Proof.
  repeat apply conj.
  - unfold setup_gui.
    destruct (load_or_get_spotify_cookie config) as [sp_dc|]; [|eauto].
    destruct (truthy sp_dc); [|eauto].
    destruct (connect account sp_dc); [|eauto].
    destruct (first_song account); cbn; eauto.
  - unfold save_cookie. destruct (truthy entry); [|eauto].
    destruct (connect account entry); [|eauto].
    destruct (first_song account) as [[s|]|e]; cbn; eauto.
  - intros s Hne Hc Hs. unfold save_cookie, truthy.
    destruct (String.eqb_spec entry ""); [contradiction|]. cbn.
    rewrite Hc, Hs. reflexivity.
Qed.

Lemma corrupt_store_blocks_the_main_window_witness :
  let account := mkAccount (fun _ => Ok tt) (Ok (Some playing_x)) in
  "cookie" <> "" /\
  connect account "cookie" = Ok tt /\
  first_song account = Ok (Some playing_x) /\
  save_cookie "cookie" None account (Some Garbage)
    = (Some (ConfigObject (Some "cookie")),
       Refused (InitFailed UnpicklingError)).
Proof.
  intros account.
  assert (Hne : "cookie" <> "") by discriminate.
  split; [exact Hne|]. split; [reflexivity|]. split; [reflexivity|].
  exact (proj2 (proj2 (corrupt_store_blocks_the_main_window None account
                         "cookie")) playing_x Hne eq_refl eq_refl).
Defined.

(** X25. What the Connect button accepted, the next start accepts: when
    [save_cookie] opens the main window, the config file it wrote gives the
    entry back through [load_or_get_spotify_cookie], and [setup_gui] on
    that config file, with the account and the store answering alike, opens
    the main window with the same application object. In every refusal
    other than a failed [initialize_main_gui] the config file is left as it
    was. *)
Theorem save_cookie_then_setup_gui
    (entry : string) (config config' : option ConfigFile)
    (account : Account) (store : option StoreFile) :
  (forall a,
     save_cookie entry config account store = (config', Connected a) ->
     load_or_get_spotify_cookie config' = Some entry /\
     setup_gui config' account store = MainGui a) /\
  (forall why,
     save_cookie entry config account store = (config', Refused why) ->
     (forall e, why <> InitFailed e) ->
     config' = config).
Proof.
  unfold save_cookie. split.
  - intros a H. destruct (truthy entry) eqn:Ht; [|discriminate].
    destruct (connect account entry) as [[]|e] eqn:Hc; [|discriminate].
    destruct (first_song account) as [[s|]|e] eqn:Hs; try discriminate.
    destruct (initialize_main_gui store) as [a0|e] eqn:Hi; [|discriminate].
    injection H as <- <-. split; [reflexivity|].
    unfold setup_gui. cbn. rewrite Ht, Hc, Hs, Hi. reflexivity.
  - intros why H Hwhy. destruct (truthy entry); [|congruence].
    destruct (connect account entry) as [[]|e]; [|congruence].
    destruct (first_song account) as [[s|]|e]; try congruence.
    destruct (initialize_main_gui store) as [a0|e]; [discriminate|].
    injection H as <- <-. exfalso. apply (Hwhy e). reflexivity.
Qed.

Lemma save_cookie_then_setup_gui_witness :
  let account := mkAccount (fun _ => Ok tt) (Ok (Some playing_x)) in
  exists a,
    save_cookie "cookie" None account None
      = (Some (ConfigObject (Some "cookie")), Connected a) /\
    setup_gui (Some (ConfigObject (Some "cookie"))) account None = MainGui a.
Proof.
  intros account. eexists. split; [reflexivity|].
  exact (proj2 (proj1 (save_cookie_then_setup_gui "cookie" None
                         (Some (ConfigObject (Some "cookie"))) account None)
                  _ eq_refl)).
Defined.

(** X26. The two ways in do not ask the same of the test query: when the
    account answers that nothing plays, [setup_gui] opens the main window
    for a stored cookie, while [save_cookie] refuses the same cookie and
    leaves the config file as it was. *)
Theorem nothing_playing_start_versus_connect
    (sp_dc : string) (config : option ConfigFile) (account : Account)
    (store : option StoreFile) (a : App) :
  sp_dc <> "" ->
  connect account sp_dc = Ok tt ->
  first_song account = Ok None ->
  initialize_main_gui store = Ok a ->
  setup_gui (Some (ConfigObject (Some sp_dc))) account store = MainGui a /\
  save_cookie sp_dc config account store
    = (config, Refused (NotVerified None)).
Proof.
  intros Hne Hc Hs Hi. unfold setup_gui, save_cookie, truthy. cbn.
  destruct (String.eqb_spec sp_dc ""); [contradiction|]. cbn.
  rewrite Hc, Hs, Hi. split; reflexivity.
Qed.

Lemma nothing_playing_start_versus_connect_witness :
  let account := mkAccount (fun _ => Ok tt) (Ok None) in
  "cookie" <> "" /\
  (exists a,
     initialize_main_gui None = Ok a /\
     setup_gui (Some (ConfigObject (Some "cookie"))) account None
       = MainGui a) /\
  save_cookie "cookie" None account None = (None, Refused (NotVerified None)).
Proof.
  intros account.
  assert (Hne : "cookie" <> "") by discriminate.
  destruct (nothing_playing_start_versus_connect "cookie" None account None
              _ Hne eq_refl eq_refl eq_refl) as [Hs Hc].
  split; [exact Hne|]. split; [|exact Hc].
  eexists. split; [reflexivity | exact Hs].
Defined.

(** ** The two playback queries of a tick *)

Lemma update_display_track_change_miss
    (sp : Spotify) (a : App) (song song' : Playback) (it it' : Item)
    (lyrics : option LyricsJson) (l0 : Line) (ls : list Line)
    (lang : string) :
  get_current_song sp 0%nat = Ok (Some song) ->
  item song = Some it ->
  duration_ms it <> 0 ->
  current_song_id a <> Some (id it) ->
  get_current_song sp 1%nat = Ok (Some song') ->
  item song' = Some it' ->
  get_lyrics sp (id it') = Ok lyrics ->
  lyrics_data_of lyrics = Some (l0 :: ls) ->
  language_of lyrics = Some lang ->
  PyDict.get (id it') (lyrics_cache a) = None ->
  let a' := snd (update_display sp a) in
  fst (update_display sp a) = Ok tt /\
  current_song_id a' = Some (id it) /\
  song_label a' = name it' ++ " - " ++ artist_name it' /\
  rows (tree a') = map lyric_row (l0 :: ls) /\
  lyrics_cache a' = lyrics_cache a /\
  threads a' = (threads a ++ [mkJob (l0 :: ls) (name it') (id it')])%list.
Proof.
  intros H0 Hit Hd Hcur H1 Hit' Hl Hdata Hlang Hmiss. cbv zeta.
  rewrite update_display_unfold, H0, Hit. cbv zeta.
  destruct (Z.eqb_spec (duration_ms it) 0) as [|_]; [contradiction|].
  assert (Hfetch : match current_song_id a with
                   | Some c => negb (id it =? c)%string
                   | None => true
                   end = true).
  { destruct (current_song_id a) as [c|]; [|reflexivity].
    destruct (String.eqb_spec (id it) c); [congruence | reflexivity]. }
  rewrite Hfetch, update_lyrics_unfold, H1, Hit', Hl. cbv zeta.
  rewrite Hdata, Hlang. read_fields. rewrite Hmiss.
  match goal with
  | |- context [update_current_lyric ?p ?s] =>
      destruct (scan_rows_readable p (rows (tree s))
                  (rows_readable_lyric_rows (l0 :: ls)) 0%nat None)
        as [r Hscan];
      rewrite (update_current_lyric_run p s r Hscan)
  end.
  destruct r; read_fields; auto 10.
Qed.

(** X27. [update_lyrics] asks the playback again and follows that second
    answer: when the track changes between the two queries of a tick, the
    tick records the first track as current while the label, the rows and
    the thread started are those of the second. The next tick that finds
    the second track playing sees a change of track again and, the cache
    still missing it, starts a second thread for the same track. *)
Theorem update_display_follows_second_answer
    (sp sp2 : Spotify) (a : App) (song song' : Playback) (it it' : Item)
    (lyrics : option LyricsJson) (l0 : Line) (ls : list Line)
    (lang : string) :
  get_current_song sp 0%nat = Ok (Some song) ->
  item song = Some it ->
  duration_ms it <> 0 ->
  current_song_id a <> Some (id it) ->
  get_current_song sp 1%nat = Ok (Some song') ->
  item song' = Some it' ->
  duration_ms it' <> 0 ->
  id it' <> id it ->
  get_lyrics sp (id it') = Ok lyrics ->
  lyrics_data_of lyrics = Some (l0 :: ls) ->
  language_of lyrics = Some lang ->
  PyDict.get (id it') (lyrics_cache a) = None ->
  get_current_song sp2 0%nat = Ok (Some song') ->
  get_current_song sp2 1%nat = Ok (Some song') ->
  get_lyrics sp2 (id it') = Ok lyrics ->
  let a1 := snd (update_display sp a) in
  let a2 := snd (update_display sp2 a1) in
  current_song_id a1 = Some (id it) /\
  rows (tree a1) = map lyric_row (l0 :: ls) /\
  threads a1 = (threads a ++ [mkJob (l0 :: ls) (name it') (id it')])%list /\
  current_song_id a2 = Some (id it') /\
  threads a2
    = (threads a ++ [mkJob (l0 :: ls) (name it') (id it');
                     mkJob (l0 :: ls) (name it') (id it')])%list.
Proof.
  intros H0 Hit Hd Hcur H1 Hit' Hd' Hne Hl Hdata Hlang Hmiss H20 H21 Hl2.
  cbv zeta.
  destruct (update_display_track_change_miss sp a song song' it it' lyrics
              l0 ls lang H0 Hit Hd Hcur H1 Hit' Hl Hdata Hlang Hmiss)
    as (_ & Hc1 & _ & Hr1 & Hcache1 & Ht1).
  cbv zeta in *.
  assert (Hcur1 : current_song_id (snd (update_display sp a))
                  <> Some (id it')) by (rewrite Hc1; congruence).
  assert (Hmiss1 : PyDict.get (id it')
                     (lyrics_cache (snd (update_display sp a))) = None)
    by (rewrite Hcache1; exact Hmiss).
  destruct (update_display_track_change_miss sp2 _ song' song' it' it'
              lyrics l0 ls lang H20 Hit' Hd' Hcur1 H21 Hit' Hl2 Hdata Hlang
              Hmiss1) as (_ & Hc2 & _ & _ & _ & Ht2).
  cbv zeta in *.
  repeat (split; [assumption|]).
  rewrite Ht2, Ht1, <- app_assoc. reflexivity.
Qed.

Lemma update_display_follows_second_answer_witness :
  let song_y :=
    mkPlayback (Some (mkItem "y" "Chanson" "Artiste" "Album" 200000))
               0 true in
  let lyrics := Some (mkLyricsJson
                        (Some (mkLyricsBody (Some five_lines) (Some "es")))) in
  let sp := mkSpotify (fun n => match n with
                                | O => Ok (Some song_y)
                                | S _ => Ok (Some playing_x)
                                end)
                      (fun _ => Ok lyrics) in
  let sp2 := mkSpotify (fun _ => Ok (Some playing_x)) (fun _ => Ok lyrics) in
  let a := app_showing None [] in
  current_song_id a <> Some "y" /\
  "x" <> "y" /\
  PyDict.get "x" (lyrics_cache a) = None /\
  current_song_id (snd (update_display sp a)) = Some "y" /\
  threads (snd (update_display sp2 (snd (update_display sp a))))
    = [mkJob five_lines "Cancion" "x"; mkJob five_lines "Cancion" "x"].
Proof.
  intros song_y lyrics sp sp2 a.
  assert (Hcur : current_song_id a <> Some "y") by discriminate.
  assert (Hne : "x" <> "y") by discriminate.
  destruct (update_display_follows_second_answer sp sp2 a song_y playing_x
              (mkItem "y" "Chanson" "Artiste" "Album" 200000)
              (mkItem "x" "Cancion" "Artista" "Album" 180000)
              lyrics (mkLine 0 "uno") (tl five_lines) "es"
              eq_refl eq_refl ltac:(discriminate) Hcur eq_refl eq_refl
              ltac:(discriminate) Hne eq_refl eq_refl eq_refl eq_refl
              eq_refl eq_refl eq_refl) as (Hc1 & _ & _ & _ & Ht2).
  split; [exact Hcur|]. split; [exact Hne|]. split; [reflexivity|].
  split; [exact Hc1 | exact Ht2].
Defined.

(** ** How long a track stays in the cache *)

Lemma get_in_nodup {V : Type} (d : PyDict.dict V) k v :
  NoDup (PyDict.keys d) -> In (k, v) d -> PyDict.get k d = Some v.
Proof.
  induction d as [|[k1 v1] d IH]; intros Hnd Hin; [contradiction|].
  cbn in Hnd. apply NoDup_cons_iff in Hnd as [Hnot Hnd].
  destruct Hin as [[= -> ->]|Hin]; cbn.
  - rewrite String.eqb_refl. reflexivity.
  - destruct (String.eqb_spec k1 k) as [->|_]; [|apply IH; assumption].
    exfalso. apply Hnot. apply (in_map fst) in Hin. exact Hin.
Qed.

(** X28. Distinct tracks written one after the other to the empty cache,
    for every size limit: the cache holds exactly the last [max_size] of
    them, in the order written; each of these reads back its own list, and
    every earlier one is gone. *)
Theorem cache_holds_the_last_tracks
    (max_size : nat) (ops : list (string * list TLine)) :
  NoDup (map fst ops) ->
  cache_puts max_size ops []
    = skipn (List.length ops - max_size) ops /\
  forall i k v,
    nth_error ops i = Some (k, v) ->
    PyDict.get k (cache_puts max_size ops [])
      = if (i <? List.length ops - max_size)%nat then None else Some v.
Proof.
  intros Hnd.
  pose proof (cache_puts_distinct max_size ops Hnd) as E.
  split; [exact E|]. rewrite E. clear E.
  set (m := (List.length ops - max_size)%nat).
  intros i k v Hi.
  assert (Hlen : List.length (firstn m ops) = m).
  { apply firstn_length_le. unfold m. lia. }
  rewrite <- (firstn_skipn m ops) in Hnd, Hi.
  rewrite map_app in Hnd.
  destruct (Nat.ltb_spec i m) as [Hlt|Hge].
  - rewrite nth_error_app1 in Hi by lia.
    apply nth_error_In in Hi. apply (in_map fst) in Hi. cbn in Hi.
    apply get_none_not_in. intros Hin. unfold PyDict.keys in Hin.
    revert Hnd Hi Hin.
    generalize (map fst (firstn m ops)) (map fst (skipn m ops)).
    intros l1 l2 Hnd H1 H2. induction l1 as [|x l1 IH]; [contradiction|].
    cbn in Hnd. apply NoDup_cons_iff in Hnd as [Hx Hnd].
    destruct H1 as [->|H1]; [|auto].
    apply Hx. apply in_or_app. right. exact H2.
  - apply get_in_nodup.
    + unfold PyDict.keys. apply NoDup_app_remove_l in Hnd. exact Hnd.
    + rewrite nth_error_app2 in Hi by lia.
      apply nth_error_In in Hi. exact Hi.
Qed.

Lemma cache_holds_the_last_tracks_witness :
  let ops := [("A", []); ("B", [mkTLine 0 "hola" "hello"]); ("C", [])] in
  NoDup (map fst ops) /\
  cache_puts 2 ops [] = [("B", [mkTLine 0 "hola" "hello"]); ("C", [])] /\
  PyDict.get "A" (cache_puts 2 ops []) = None /\
  PyDict.get "B" (cache_puts 2 ops []) = Some [mkTLine 0 "hola" "hello"].
Proof.
  intros ops.
  assert (Hnd : NoDup (map fst ops)).
  { cbn. repeat constructor; cbn; intuition discriminate. }
  destruct (cache_holds_the_last_tracks 2 ops Hnd) as [E Hget].
  split; [exact Hnd|]. split; [exact E|]. split.
  - exact (Hget 0%nat "A" [] eq_refl).
  - exact (Hget 1%nat "B" [mkTLine 0 "hola" "hello"] eq_refl).
Defined.
